(** * raspessence: the LinTronic serial codec and the event coordinator

    A shallow embedding of [raspessence/lintronic.py], [raspessence/main.py],
    [raspessence/dbus.py] and the request handler of
    [raspessence/webserver.py], with the properties of the design document
    proved about it.

    Conventions.
    - Python [bytes] are [list byte]; [sum(c for c in msg)] is [byte_sum].
    - Python [int] is [Z]; the format specification [03] is [format_03].
    - Python [float] (IEEE 754 binary64) is [spec_float]; [a > b] is
      [SFltb b a], which is [false] as soon as one side is a NaN.
    - A coroutine is a term of the free monad [Prog]: synchronous code is an
      [Atomic] node, every [await] of the source an [Await] node.
    - The world keeps a record of what the process did: the calls of
      [writer.write], the awaits, the warnings, the tasks created and
      cancelled, the assignments to the state.  The [logger.debug] and
      [logger.info] lines of the source are left out.
    - The event loop may run another coroutine at every [Await].  A drain
      of the writer waits only when the transport has paused writing, so the
      loop allows more runs than asyncio does: what holds of all its runs
      holds of the program, and a run shown to exist resumes every drain in
      the step after the one that reached it.
    - [LinTronic.readuntil] reads from a stream without a limit; [Limited]
      has the reader with the limit of 2 ** 16 bytes that the serial
      connection is opened with.
    - A [str] of webserver.py is the list of its code points and
      [str.encode()] is UTF-8, which a lone surrogate does not have. *)

From Stdlib Require Import Strings.String Strings.Byte.
From Stdlib Require Import ZArith List Bool Lia.
From Stdlib Require Import Floats.SpecFloat.
Import ListNotations.

Local Open Scope Z_scope.

(** ** Bytes *)

Definition bytes : Type := list byte.

(** A bytes literal, [b"..."] in the source. *)
Definition b (s : string) : bytes := list_byte_of_string s.

Definition byte_val (c : byte) : Z := Z.of_N (Byte.to_N c).

(** [sum(c for c in msg)] *)
Definition byte_sum (msg : bytes) : Z :=
  fold_right (fun c acc => byte_val c + acc) 0 msg.

Fixpoint bytes_eqb (x y : bytes) : bool :=
  match x, y with
  | [], [] => true
  | c :: x', d :: y' => Byte.eqb c d && bytes_eqb x' y'
  | _, _ => false
  end.

(** [l[:-k]] for a literal [k > 0]: Python clamps the bound at the start of
    the sequence, as the truncated subtraction does. *)
Definition slice_to_last (k : nat) (l : bytes) : bytes :=
  firstn (length l - k) l.

(** [l[-i:-j]] for literals [i > 0] and [j > 0]. *)
Definition slice_last (i j : nat) (l : bytes) : bytes :=
  skipn (length l - i) (firstn (length l - j) l).

(** ** Formatting an [int] with the format specification [03] *)

Definition digit (d : Z) : byte :=
  match d with
  | 0 => "0" | 1 => "1" | 2 => "2" | 3 => "3" | 4 => "4"
  | 5 => "5" | 6 => "6" | 7 => "7" | 8 => "8" | _ => "9"
  end%byte.

(** The decimal digits of [n >= 0], most significant first; [fuel] bounds
    the number of digits. *)
Fixpoint decimal_digits (fuel : nat) (n : Z) (acc : bytes) : bytes :=
  match fuel with
  | O => acc
  | S fuel' =>
      let acc' := digit (n mod 10) :: acc in
      if n / 10 =? 0 then acc' else decimal_digits fuel' (n / 10) acc'
  end.

(** [str(n)] for [n >= 0]: a number has no more decimal than binary digits. *)
Definition decimal (n : Z) : bytes :=
  decimal_digits (S (Z.to_nat (Z.log2 n))) n [].

Definition zero_pad (width : nat) (ds : bytes) : bytes :=
  repeat "0"%byte (width - length ds) ++ ds.

(** [bytes(f"{n:03}", "ascii")]: the minimum width is 3, the fill is the
    digit zero and goes between the sign and the digits. *)
Definition format_03 (n : Z) : bytes :=
  if n <? 0 then "-"%byte :: zero_pad 2 (decimal (- n))
  else zero_pad 3 (decimal n).

(** ** The data of main.py and dbus.py *)

Inductive PlaybackStatus : Type :=
| PLAYING
| PAUSED
| STOPPED
| UNKNOWN.

(** [status.value] *)
Definition status_value (s : PlaybackStatus) : string :=
  match s with
  | PLAYING => "Playing"
  | PAUSED => "Paused"
  | STOPPED => "Stopped"
  | UNKNOWN => "Unknown"
  end.

(** [PlaybackStatus(status)], the lookup of a member by its value; [None]
    is the [ValueError] of a string that is no member's value. *)
Definition PlaybackStatus_of (status : string) : option PlaybackStatus :=
  if String.eqb status "Playing" then Some PLAYING
  else if String.eqb status "Paused" then Some PAUSED
  else if String.eqb status "Stopped" then Some STOPPED
  else if String.eqb status "Unknown" then Some UNKNOWN
  else None.

Definition PlaybackStatus_eqb (x y : PlaybackStatus) : bool :=
  match x, y with
  | PLAYING, PLAYING | PAUSED, PAUSED
  | STOPPED, STOPPED | UNKNOWN, UNKNOWN => true
  | _, _ => false
  end.

(** The binary64 float nearest to [m * 2^e], for [m >= 0]. *)
Definition binary64 (m e : Z) : spec_float :=
  binary_normalize 53 1024 m e false.

(** The float 0.5: mantissa 2^52, exponent -53. *)
Definition float_0_5 : spec_float := Eval cbv in binary64 1 (-1).

Record State : Type := mkState {
  last_known_volume : spec_float;
  last_known_playback_status : PlaybackStatus
}.

(** [State()], the defaults of the attrs class. *)
Definition State_default : State :=
  {| last_known_volume := float_0_5;
     last_known_playback_status := UNKNOWN |}.

(** [timedelta], in seconds. *)
Definition timedelta : Type := Z.
Definition minutes (m : Z) : timedelta := 60 * m.
Definition total_seconds (t : timedelta) : Z := t.

Definition FIVE_MINUTES : timedelta := minutes 5.
Definition FIFTEEN_MINUTES : timedelta := minutes 15.

Inductive SpotifyCommand : Type :=
| PAUSE.

(** A [SpotifydHandler] is identified by its bus name; its player proxy is
    the remote end [call_pause] talks to. *)
Record SpotifydHandler : Type := mkSpotifydHandler {
  bus_name : string
}.

(** ** The asyncio runtime

    A task made by [asyncio.create_task(self.shutdown_timer(timeout))] is
    [Pending] until its sleep is over or it is cancelled.  [Task.cancel] on
    a task that sleeps (or has not run yet) makes the event loop throw
    [CancelledError] into it at the [await]: nothing after the sleep runs.
    On a task that is done it does nothing.  A timer past its sleep has
    nothing left to run but the end of its write: it counts as [Fired], and
    cancelling it changes nothing either. *)

Inductive TaskState : Type :=
| Pending (timeout : timedelta)
| Cancelled
| Fired.

(** The awaits of the source that leave the process. *)
Inductive Awaitable : Type :=
| Drain
| Sleep (seconds : Z)
| CallPause (bus : string).

Inductive LogWarning : Type :=
| UnknownPlaybackStatus (status : string)
| TimerWokeNotPausedOrStopped (was : PlaybackStatus)
| NoConnectionWithSpotifyd.

(** What the process did, oldest first. *)
Inductive Action : Type :=
| WriterWrite (message : bytes)
| Awaiting (aw : Awaitable)
| Warned (msg : LogWarning)
| CreatedTask (task : nat) (timeout : timedelta)
| CancelledTask (task : nat)
| SetVolume (volume : spec_float)
| SetStatus (status : PlaybackStatus).

(** The attributes of [MainHandler] and of its [DbusHandler], the tasks of
    the event loop (a task is its index) and the record of the actions. *)
Record World : Type := mkWorld {
  state : State;
  shutdown_timer_task : option nat;
  spotify_handler : option SpotifydHandler;
  tasks : list TaskState;
  log : list Action
}.

(** *** Synchronous code: a state monad over the world *)

Definition Sync (X : Type) : Type := World -> X * World.

Definition sync_ret {X} (x : X) : Sync X := fun w => (x, w).

Definition sync_bind {X Y} (m : Sync X) (f : X -> Sync Y) : Sync Y :=
  fun w => let (x, w') := m w in f x w'.

Definition record (a : Action) (w : World) : World :=
  {| state := state w;
     shutdown_timer_task := shutdown_timer_task w;
     spotify_handler := spotify_handler w;
     tasks := tasks w;
     log := log w ++ [a] |}.

Definition read_state : Sync State := fun w => (state w, w).

Definition read_shutdown_timer_task : Sync (option nat) :=
  fun w => (shutdown_timer_task w, w).

Definition read_spotify_handler : Sync (option SpotifydHandler) :=
  fun w => (spotify_handler w, w).

(** [self.state.last_known_volume = volume] *)
Definition set_last_known_volume (volume : spec_float) : Sync unit :=
  fun w =>
    (tt, record (SetVolume volume)
      {| state := {| last_known_volume := volume;
                     last_known_playback_status :=
                       last_known_playback_status (state w) |};
         shutdown_timer_task := shutdown_timer_task w;
         spotify_handler := spotify_handler w;
         tasks := tasks w;
         log := log w |}).

(** [self.state.last_known_playback_status = status] *)
Definition set_last_known_playback_status (status : PlaybackStatus)
  : Sync unit :=
  fun w =>
    (tt, record (SetStatus status)
      {| state := {| last_known_volume := last_known_volume (state w);
                     last_known_playback_status := status |};
         shutdown_timer_task := shutdown_timer_task w;
         spotify_handler := spotify_handler w;
         tasks := tasks w;
         log := log w |}).

(** [self.shutdown_timer_task = task] *)
Definition set_shutdown_timer_task (task : nat) : Sync unit :=
  fun w =>
    (tt, {| state := state w;
            shutdown_timer_task := Some task;
            spotify_handler := spotify_handler w;
            tasks := tasks w;
            log := log w |}).

Definition logger_warning (msg : LogWarning) : Sync unit :=
  fun w => (tt, record (Warned msg) w).

(** [self.writer.write(message)]: the bytes go to the transport's buffer. *)
Definition writer_write (message : bytes) : Sync unit :=
  fun w => (tt, record (WriterWrite message) w).

Fixpoint set_nth (n : nat) (x : TaskState) (l : list TaskState)
  : list TaskState :=
  match l, n with
  | [], _ => []
  | _ :: l', O => x :: l'
  | y :: l', S n' => y :: set_nth n' x l'
  end.

(** [task.cancel()] *)
Definition cancel (task : nat) : Sync unit :=
  fun w =>
    (tt, record (CancelledTask task)
      {| state := state w;
         shutdown_timer_task := shutdown_timer_task w;
         spotify_handler := spotify_handler w;
         tasks := match nth_error (tasks w) task with
                  | Some (Pending _) => set_nth task Cancelled (tasks w)
                  | _ => tasks w
                  end;
         log := log w |}).

(** [asyncio.create_task(self.shutdown_timer(timeout))]: the new task is
    scheduled, its coroutine has not run yet. *)
Definition create_task (timeout : timedelta) : Sync nat :=
  fun w =>
    let task := length (tasks w) in
    (task, record (CreatedTask task timeout)
      {| state := state w;
         shutdown_timer_task := shutdown_timer_task w;
         spotify_handler := spotify_handler w;
         tasks := tasks w ++ [Pending timeout];
         log := log w |}).

(** *** Coroutines

    The code between two awaits runs without interruption ([Atomic]); at an
    [Await] the coroutine is suspended until the awaited operation is over.
    No coroutine of the source catches what an await raises. *)

Inductive Prog (A : Type) : Type :=
| Ret (a : A)
| Atomic {X : Type} (m : Sync X) (k : X -> Prog A)
| Await (aw : Awaitable) (k : Prog A).

Arguments Ret {A} a.
Arguments Atomic {A X} m k.
Arguments Await {A} aw k.

Fixpoint bind {A B} (p : Prog A) (f : A -> Prog B) : Prog B :=
  match p with
  | Ret a => f a
  | Atomic m k => Atomic m (fun x => bind (k x) f)
  | Await aw k => Await aw (bind k f)
  end.

Definition lift {X} (m : Sync X) : Prog X := Atomic m Ret.

Definition await (aw : Awaitable) : Prog unit := Await aw (Ret tt).

Declare Scope prog_scope.
Delimit Scope prog_scope with prog.
Bind Scope prog_scope with Prog.

Notation "x <- m ;; k" := (bind m (fun x => k))
  (at level 61, m at next level, right associativity) : prog_scope.
Notation "m ;; k" := (bind m (fun _ => k))
  (at level 61, right associativity) : prog_scope.

(** How an await ends. *)
Inductive Outcome : Type :=
| Completes
| Raises (exc : string).

Inductive Result (A : Type) : Type :=
| Returned (a : A)
| Raised (exc : string).

Arguments Returned {A} a.
Arguments Raised {A} exc.

(** A coroutine run from start to end with no other coroutine in between.
    [outs] are the outcomes of its awaits in order; the awaits beyond
    [outs] complete. *)
Fixpoint run {A} (outs : list Outcome) (p : Prog A) (w : World)
  : Result A * World :=
  match p with
  | Ret a => (Returned a, w)
  | Atomic m k => let (x, w') := m w in run outs (k x) w'
  | Await aw k =>
      let w' := record (Awaiting aw) w in
      match outs with
      | Raises exc :: _ => (Raised exc, w')
      | Completes :: outs' => run outs' k w'
      | [] => run [] k w'
      end
  end.

(** A coroutine run up to its next suspension. *)
Inductive Suspension (A : Type) : Type :=
| Finished (a : A)
| Waiting (aw : Awaitable) (k : Prog A).

Arguments Finished {A} a.
Arguments Waiting {A} aw k.

Fixpoint advance {A} (p : Prog A) (w : World) : Suspension A * World :=
  match p with
  | Ret a => (Finished a, w)
  | Atomic m k => let (x, w') := m w in advance (k x) w'
  | Await aw k => (Waiting aw k, record (Awaiting aw) w)
  end.

(** What is left of a coroutine once its first await is over. *)
Definition resumed {A} (p : Prog A) : Prog A :=
  match p with
  | Await _ k => k
  | _ => p
  end.

(** ** lintronic.py *)

Module LinTronic.

Definition LINTRONIC_ADDRESS : bytes := b "01".
Definition OUR_ADDRESS : bytes := b "00".

Definition START_OF_TRANSMISSION : bytes := b "<".
Definition END_OF_TRANSMISSION : bytes := b ">".

Definition MAGIC_SUFFIX : bytes := b "024".

Inductive BeoCommand : Type :=
| VOLUME_DOWN
| VOLUME_UP
| AUDIO_AUX
| AUDIO_NEXT
| AUDIO_PREV
| AUDIO_PAUSE
| AUDIO_PLAY
| A_TAPE2
| AUDIO_POWER_OFF.

(** [beo_command.value] *)
Definition value (beo_command : BeoCommand) : bytes :=
  match beo_command with
  | VOLUME_DOWN => b "040255010010701001100000000000000"
  | VOLUME_UP => b "040255010010701000096000000000000"
  | AUDIO_AUX => b "040255010010701001131000000000000"
  | AUDIO_NEXT => b "040255010010701001052000000000000"
  | AUDIO_PREV => b "040255010010701001050000000000000"
  | AUDIO_PAUSE => b "040255010010701001054000000000000"
  | AUDIO_PLAY => b "040255010010701001053000000000000"
  | A_TAPE2 => b "040255010010701001148000000000000"
  | AUDIO_POWER_OFF => b "040255010010701001012000000000000"
  end.

(** The bytes [write_message_to_lintronic] hands to [self.writer.write]:
    the local [message] of the source. *)
Definition encode (beo_command : BeoCommand) (repeat_count : Z) : bytes :=
  let binary_repeat_count := format_03 repeat_count in
  let msg :=
    LINTRONIC_ADDRESS
    ++ OUR_ADDRESS
    ++ value beo_command
    ++ binary_repeat_count
    ++ MAGIC_SUFFIX in
  let checksum := format_03 (byte_sum msg mod 256) in
  START_OF_TRANSMISSION ++ msg ++ checksum ++ END_OF_TRANSMISSION.

(** [write_message_to_lintronic]: lines 85 to 95 are [encode]. *)
Definition write_message_to_lintronic
    (beo_command : BeoCommand) (repeat_count : Z) : Prog unit :=
  (lift (writer_write (encode beo_command repeat_count)) ;;
   await Drain)%prog.

(** *** The receive path

    [self.reader] is the bytes still to come on the serial line.  A read that
    meets the end of the stream raises [IncompleteReadError]: [None]. *)

Definition Reader (A : Type) : Type := bytes -> option (A * bytes).

Definition ret_r {A} (a : A) : Reader A := fun s => Some (a, s).

Definition bind_r {A B} (m : Reader A) (f : A -> Reader B) : Reader B :=
  fun s => match m s with
           | Some (a, s') => f a s'
           | None => None
           end.

Notation "x <~ m ;; k" := (bind_r m (fun x => k))
  (at level 61, m at next level, right associativity).

Definition readexactly (n : nat) : Reader bytes :=
  fun s => if (length s <? n)%nat then None else Some (firstn n s, skipn n s).

Fixpoint is_prefix (p s : bytes) : bool :=
  match p, s with
  | [], _ => true
  | c :: p', d :: s' => Byte.eqb c d && is_prefix p' s'
  | _ :: _, [] => false
  end.

(** [readuntil(separator)] returns the data up to and including the first
    occurrence of the separator (one byte long in the source); the stream
    ending before it raises [IncompleteReadError]. *)
Fixpoint readuntil (separator : bytes) (s : bytes) : option (bytes * bytes) :=
  if is_prefix separator s
  then Some (separator, skipn (length separator) s)
  else match s with
       | [] => None
       | c :: s' =>
           match readuntil separator s' with
           | Some (data, rest) => Some (c :: data, rest)
           | None => None
           end
       end.

(** What [handle_incoming_message] did with the frame: the three warnings
    it can log before it returns, or the final [logger.info]. *)
Inductive Handled : Type :=
| NotAddressedToUs (to_address : bytes)
| NotFromLintronic (from_address : bytes)
| InvalidChecksum (checksum expected_checksum : bytes)
| GotCmd (cmd data : bytes).

(** Lines 68 to 80: the slicing of what was read and the comparison. *)
Definition validate_checksum
    (to_address from_address cmd data_and_checksum : bytes) : Handled :=
  let data := slice_to_last 4 data_and_checksum in
  let checksum := slice_last 3 1 data_and_checksum in
  let msg := to_address ++ from_address ++ cmd ++ data in
  let expected_checksum := format_03 (byte_sum msg mod 256) in
  if negb (bytes_eqb checksum expected_checksum)
  then InvalidChecksum checksum expected_checksum
  else GotCmd cmd data.

Definition handle_incoming_message : Reader Handled :=
  to_address <~ readexactly 2 ;;
  if negb (bytes_eqb to_address OUR_ADDRESS)
  then ret_r (NotAddressedToUs to_address)
  else
    from_address <~ readexactly 2 ;;
    if negb (bytes_eqb from_address LINTRONIC_ADDRESS)
    then ret_r (NotFromLintronic from_address)
    else
      cmd <~ readexactly 3 ;;
      data_and_checksum <~ readuntil END_OF_TRANSMISSION ;;
      ret_r (validate_checksum to_address from_address cmd data_and_checksum).

(** The reads of the receive path on a whole frame, the two address checks
    left out: the start marker as [listen_for_incoming_messages] reads it,
    then the four fields as [handle_incoming_message] does. *)
Definition read_fields : Reader (bytes * bytes * bytes * bytes) :=
  _ <~ readuntil START_OF_TRANSMISSION ;;
  to_address <~ readexactly 2 ;;
  from_address <~ readexactly 2 ;;
  cmd <~ readexactly 3 ;;
  data_and_checksum <~ readuntil END_OF_TRANSMISSION ;;
  ret_r (to_address, from_address, cmd, data_and_checksum).

(** [listen_for_incoming_messages]: [while True] ends only when a read
    raises; [fuel] bounds the number of frames handled. *)
Fixpoint listen_for_incoming_messages (fuel : nat) (s : bytes)
  : list Handled :=
  match fuel with
  | O => []
  | S fuel' =>
      match readuntil START_OF_TRANSMISSION s with
      | None => []
      | Some (_, s1) =>
          match handle_incoming_message s1 with
          | None => []
          | Some (h, s2) => h :: listen_for_incoming_messages fuel' s2
          end
      end
  end.

End LinTronic.

(** ** dbus.py: what the coordinator calls *)

Module Dbus.

(** [SpotifydHandler.send_command]; [SpotifyCommand] has no member for the
    [raise NotImplementedError] of the [else] branch. *)
Definition send_command
    (self : SpotifydHandler) (spotify_command : SpotifyCommand) : Prog unit :=
  match spotify_command with
  | PAUSE => await (CallPause (bus_name self))
  end.

(** [DbusHandler.send_spotify_command] *)
Definition send_spotify_command (spotify_command : SpotifyCommand)
  : Prog unit :=
  (handler <- lift read_spotify_handler ;;
   match handler with
   | None => lift (logger_warning NoConnectionWithSpotifyd)
   | Some spotify_handler => send_command spotify_handler spotify_command
   end)%prog.

End Dbus.

(** ** main.py: [MainHandler] *)

Module Main.

Import LinTronic.

(** [MainHandler.__init__]; [handler] is the [spotify_handler] of the
    [DbusHandler] it is given. *)
Definition MainHandler_init (handler : option SpotifydHandler) : World :=
  {| state := State_default;
     shutdown_timer_task := None;
     spotify_handler := handler;
     tasks := [];
     log := [] |}.

(** [if self.shutdown_timer_task is not None:
        self.shutdown_timer_task.cancel()] *)
Definition cancel_shutdown_timer_task : Sync unit :=
  sync_bind read_shutdown_timer_task (fun task =>
  match task with
  | Some t => cancel t
  | None => sync_ret tt
  end).

Definition start_shutdown_timer (timeout : timedelta) : Sync unit :=
  sync_bind cancel_shutdown_timer_task (fun _ =>
  sync_bind (create_task timeout) (fun task =>
  set_shutdown_timer_task task)).

Definition volume_handler (volume : spec_float) : Prog unit :=
  (st <- lift read_state ;;
   (if SFltb (last_known_volume st) volume
    then write_message_to_lintronic VOLUME_UP 1
    else write_message_to_lintronic VOLUME_DOWN 1) ;;
   lift (set_last_known_volume volume))%prog.

Definition playback_handler (status : string) : Prog unit :=
  (st <- lift read_state ;;
   if String.eqb status (status_value (last_known_playback_status st))
   then Ret tt
   else
     match PlaybackStatus_of status with
     | None =>
         lift (logger_warning (UnknownPlaybackStatus status)) ;;
         lift (set_last_known_playback_status UNKNOWN)
     | Some playback_status =>
         match playback_status with
         | PLAYING =>
             write_message_to_lintronic AUDIO_AUX 1 ;;
             lift cancel_shutdown_timer_task
         | PAUSED =>
             now <- lift read_state ;;
             (if PlaybackStatus_eqb (last_known_playback_status now) STOPPED
              then write_message_to_lintronic AUDIO_AUX 1
              else Ret tt) ;;
             lift (start_shutdown_timer FIFTEEN_MINUTES)
         | STOPPED =>
             lift (start_shutdown_timer FIVE_MINUTES)
         | UNKNOWN => Ret tt
         end ;;
         lift (set_last_known_playback_status playback_status)
     end)%prog.

Definition power_off_handler : Prog unit :=
  (write_message_to_lintronic VOLUME_DOWN 10 ;;
   await (Sleep 1) ;;
   Dbus.send_spotify_command PAUSE ;;
   write_message_to_lintronic AUDIO_POWER_OFF 1 ;;
   lift (set_last_known_playback_status PAUSED) ;;
   lift cancel_shutdown_timer_task)%prog.

Definition shutdown_timer (timeout : timedelta) : Prog unit :=
  (await (Sleep (total_seconds timeout)) ;;
   st <- lift read_state ;;
   if negb (existsb (PlaybackStatus_eqb (last_known_playback_status st))
              [PAUSED; STOPPED])
   then lift (logger_warning
                (TimerWokeNotPausedOrStopped (last_known_playback_status st)))
   else write_message_to_lintronic AUDIO_POWER_OFF 1)%prog.

(** *** The event loop

    The coroutines the process runs: the two callbacks registered with the
    [DbusHandler], the callback given to the web server, and the shutdown
    timers.  A step of the loop starts a callback, resumes a coroutine whose
    await is over (or drops it when the await raised), or ends the sleep of
    a pending timer.  The [spotify_handler] changes when spotifyd appears or
    goes. *)

Inductive Callback : Type :=
| VolumeChanged (volume : spec_float)
| PlaybackStatusChanged (status : string)
| PowerOffRequested.

Definition callback (c : Callback) : Prog unit :=
  match c with
  | VolumeChanged volume => volume_handler volume
  | PlaybackStatusChanged status => playback_handler status
  | PowerOffRequested => power_off_handler
  end.

Record System : Type := mkSystem {
  world : World;
  waiting : list (Awaitable * Prog unit)
}.

Definition park (others : list (Awaitable * Prog unit))
    (s : Suspension unit * World) : System :=
  match fst s with
  | Finished _ => mkSystem (snd s) others
  | Waiting aw k => mkSystem (snd s) (others ++ [(aw, k)])
  end.

(** The sleep of [task] is over. *)
Definition fire (task : nat) (w : World) : World :=
  {| state := state w;
     shutdown_timer_task := shutdown_timer_task w;
     spotify_handler := spotify_handler w;
     tasks := set_nth task Fired (tasks w);
     log := log w |}.

Definition presence (handler : option SpotifydHandler) (w : World) : World :=
  {| state := state w;
     shutdown_timer_task := shutdown_timer_task w;
     spotify_handler := handler;
     tasks := tasks w;
     log := log w |}.

Inductive Label : Type :=
| Start (c : Callback)
| Resume (aw : Awaitable)
| Drop (aw : Awaitable) (exc : string)
| Fire (task : nat)
| Presence (handler : option SpotifydHandler).

Inductive step : System -> Label -> System -> Prop :=
| step_start c w ws :
    step (mkSystem w ws) (Start c) (park ws (advance (callback c) w))
| step_resume aw k w l1 l2 :
    step (mkSystem w (l1 ++ (aw, k) :: l2)) (Resume aw)
         (park (l1 ++ l2) (advance k w))
| step_drop aw k exc w l1 l2 :
    step (mkSystem w (l1 ++ (aw, k) :: l2)) (Drop aw exc)
         (mkSystem w (l1 ++ l2))
| step_fire task timeout w ws :
    nth_error (tasks w) task = Some (Pending timeout) ->
    step (mkSystem w ws) (Fire task)
         (park ws (advance (resumed (shutdown_timer timeout)) (fire task w)))
| step_presence handler w ws :
    step (mkSystem w ws) (Presence handler) (mkSystem (presence handler w) ws).

Inductive reachable : System -> Prop :=
| reachable_init handler :
    reachable (mkSystem (MainHandler_init handler) [])
| reachable_step s l s' :
    reachable s -> step s l s' -> reachable s'.

(** An execution of the loop and its labels. *)
Inductive steps : System -> list Label -> System -> Prop :=
| steps_nil s : steps s [] s
| steps_cons s l s1 ls s2 :
    step s l s1 -> steps s1 ls s2 -> steps s (l :: ls) s2.

(** [task] is armed: created, not cancelled, its sleep not over. *)
Definition pending (w : World) (task : nat) : Prop :=
  exists timeout, nth_error (tasks w) task = Some (Pending timeout).

End Main.

(** ** webserver.py: the power-off request *)

Module Webserver.

(** A [str]: the sequence of its code points.  A code point from U+D800 to
    U+DFFF is a lone surrogate; a number outside of [range(0x110000)] is no
    code point. *)
Definition str : Type := list Z.

(** A [str] literal of ASCII characters. *)
Definition text (literal : string) : str := map byte_val (b literal).

(** [x.startswith(prefix)] *)
Fixpoint startswith (x prefix : str) {struct prefix} : bool :=
  match prefix, x with
  | [], _ => true
  | p :: prefix', c :: x' => (c =? p) && startswith x' prefix'
  | _ :: _, [] => false
  end.

Definition byte_of (n : Z) : byte :=
  match Byte.of_N (Z.to_N n) with
  | Some c => c
  | None => "000"%byte
  end.

(** The UTF-8 bytes of one code point; a lone surrogate has none. *)
Definition encode_code_point (c : Z) : option bytes :=
  if c <? 0 then None
  else if c <? 128 then Some [byte_of c]
  else if c <? 2048
  then Some [byte_of (c / 64 + 192); byte_of (c mod 64 + 128)]
  else if c <? 65536
  then if (55296 <=? c) && (c <=? 57343) then None
       else Some [byte_of (c / 4096 + 224); byte_of (c / 64 mod 64 + 128);
                  byte_of (c mod 64 + 128)]
  else if c <? 1114112
  then Some [byte_of (c / 262144 + 240); byte_of (c / 4096 mod 64 + 128);
             byte_of (c / 64 mod 64 + 128); byte_of (c mod 64 + 128)]
  else None.

(** [x.encode()]: [None] is [UnicodeEncodeError]. *)
Fixpoint encode (x : str) : option bytes :=
  match x with
  | [] => Some []
  | c :: x' =>
      match encode_code_point c, encode x' with
      | Some bs, Some rest => Some (bs ++ rest)
      | _, _ => None
      end
  end.

(** [secrets.compare_digest] on two [bytes]: their equality, in a time that
    does not depend on where they differ. *)
Definition compare_digest (x y : bytes) : bool := bytes_eqb x y.

(** The handler of [GET /off] in [start_server]: [auth_header] is
    [request.headers.get("Authorization")]; the result is the status of the
    response, or the exception the handler raises itself. *)
Definition power_off_handler
    (power_off_callback : Prog unit) (auth_secret_b : bytes)
    (auth_header : option str) : Prog (Result Z) :=
  match auth_header with
  | None => Ret (Returned 401)
  | Some auth_header =>
      if match auth_header with [] => true | _ :: _ => false end
         || negb (startswith auth_header (text "Bearer "))
      then Ret (Returned 401)
      else
        match encode (skipn 7 auth_header) with
        | None => Ret (Raised "UnicodeEncodeError")
        | Some token =>
            if negb (compare_digest token auth_secret_b)
            then Ret (Returned 401)
            else (power_off_callback ;; Ret (Returned 200))%prog
        end
  end.

(** [start_server], line 10 and the handler it defines; the making of the
    aiohttp application is left out. *)
Definition start_server (power_off_callback : Prog unit) (auth_secret : str)
  : Result (option str -> Prog (Result Z)) :=
  match encode auth_secret with
  | None => Raised "UnicodeEncodeError"
  | Some auth_secret_b =>
      Returned (power_off_handler power_off_callback auth_secret_b)
  end.

(** [main], lines 152 and 153: the secret comes from the environment and is
    not empty. *)
Definition auth_secret_of (environ_get : option str) : Result str :=
  match environ_get with
  | None => Raised "ConfigError"
  | Some [] => Raised "ConfigError"
  | Some auth_secret => Returned auth_secret
  end.

End Webserver.

(** ** dbus.py: the watch on spotifyd *)

Module Bus.

Definition SPOTIFYD : string := "org.mpris.MediaPlayer2.spotifyd".

Inductive SpotifyEvent : Type :=
| VOLUME
| PLAYBACK_STATUS.

(** [spotify_event.value] *)
Definition event_value (e : SpotifyEvent) : string :=
  match e with
  | VOLUME => "Volume"
  | PLAYBACK_STATUS => "PlaybackStatus"
  end.

Section Callbacks.

(** What [variant.value] can be. *)
Variable V : Type.

(** A [dict[str, Callable[..., Awaitable]]], oldest key first. *)
Definition Callbacks : Type := list (string * (V -> Prog unit)).

(** [d.get(key)] *)
Fixpoint dict_get (key : string) (d : Callbacks) : option (V -> Prog unit) :=
  match d with
  | [] => None
  | (k, v) :: d' => if (k =? key)%string then Some v else dict_get key d'
  end.

(** [d[key] = value] *)
Fixpoint dict_set (key : string) (value : V -> Prog unit) (d : Callbacks)
  : Callbacks :=
  match d with
  | [] => [(key, value)]
  | (k, v) :: d' =>
      if (k =? key)%string then (key, value) :: d'
      else (k, v) :: dict_set key value d'
  end.

(** A [SpotifydHandler] as dbus.py has it: [callbacks] is a reference to a
    dict, not a dict of its own. *)
Record SpotifydHandler : Type := mkSpotifydHandler {
  bus_name : string;
  callbacks : nat
}.

(** The objects of dbus.py: the dicts there are, the handlers subscribed to
    the property changes of their spotifyd, and the two attributes of the
    [DbusHandler] that matter. *)
Record Bus : Type := mkBus {
  dicts : list Callbacks;
  subscribed : list SpotifydHandler;
  spotify_callbacks : nat;
  spotify_handler : option SpotifydHandler
}.

(** The dict a reference stands for. *)
Definition deref (s : Bus) (r : nat) : Callbacks := nth r (dicts s) [].

Fixpoint store (r : nat) (d : Callbacks) (l : list Callbacks)
  : list Callbacks :=
  match l, r with
  | [], _ => []
  | _ :: l', O => d :: l'
  | x :: l', S r' => x :: store r' d l'
  end.

(** [{}] *)
Definition new_dict : Bus -> nat * Bus :=
  fun s => (length (dicts s),
            {| dicts := dicts s ++ [[]];
               subscribed := subscribed s;
               spotify_callbacks := spotify_callbacks s;
               spotify_handler := spotify_handler s |}).

(** [properties.on_properties_changed(self._on_properties_changed)] *)
Definition subscribe (self : SpotifydHandler) : Bus -> unit * Bus :=
  fun s => (tt,
            {| dicts := dicts s;
               subscribed := subscribed s ++ [self];
               spotify_callbacks := spotify_callbacks s;
               spotify_handler := spotify_handler s |}).

(** [cls(message_bus, dbus, spotify_callbacks, spotify_handler)] *)
Definition DbusHandler_init (callbacks : nat)
    (handler : option SpotifydHandler) : Bus -> unit * Bus :=
  fun s => (tt,
            {| dicts := dicts s;
               subscribed := subscribed s;
               spotify_callbacks := callbacks;
               spotify_handler := handler |}).

Definition read_spotify_handler : Bus -> option SpotifydHandler * Bus :=
  fun s => (spotify_handler s, s).

Definition read_spotify_callbacks : Bus -> nat * Bus :=
  fun s => (spotify_callbacks s, s).

(** [self.spotify_handler = handler] *)
Definition set_spotify_handler (handler : option SpotifydHandler)
  : Bus -> unit * Bus :=
  fun s => (tt,
            {| dicts := dicts s;
               subscribed := subscribed s;
               spotify_callbacks := spotify_callbacks s;
               spotify_handler := handler |}).

(** [DbusHandler.register_spotify_callback]: the dict is changed in place. *)
Definition register_spotify_callback
    (spotify_event : SpotifyEvent) (handler : V -> Prog unit)
  : Bus -> unit * Bus :=
  fun s =>
    let r := spotify_callbacks s in
    (tt,
     {| dicts := store r (dict_set (event_value spotify_event) handler
                            (deref s r)) (dicts s);
        subscribed := subscribed s;
        spotify_callbacks := spotify_callbacks s;
        spotify_handler := spotify_handler s |}).

(** The calls to the bus the coroutines of dbus.py await, with the type of
    their answers. [Introspect] stands for the making of the proxy and of
    its two interfaces. *)
Inductive Call : Type -> Type :=
| CallNameHasOwner (name : string) : Call bool
| Introspect (name : string) : Call unit.

(** The coroutines of dbus.py: a call either returns its answer or raises,
    and no coroutine here catches what it raises. *)
Inductive Co (A : Type) : Type :=
| Done (a : A)
| Step {X : Type} (m : Bus -> X * Bus) (k : X -> Co A)
| Wait {X : Type} (c : Call X) (k : X -> Co A).

Arguments Done {A} a.
Arguments Step {A X} m k.
Arguments Wait {A X} c k.

Fixpoint co_bind {A B} (p : Co A) (f : A -> Co B) : Co B :=
  match p with
  | Done a => f a
  | Step m k => Step m (fun x => co_bind (k x) f)
  | Wait c k => Wait c (fun x => co_bind (k x) f)
  end.

(** [SpotifydHandler.create] *)
Definition SpotifydHandler_create (name : string) (callbacks : nat)
  : Co SpotifydHandler :=
  Wait (Introspect name) (fun _ =>
  let self := mkSpotifydHandler name callbacks in
  Step (subscribe self) (fun _ =>
  Done self)).

(** The [for ... else] of [DbusHandler.create] over the answer of
    [call_list_names]. *)
Fixpoint connect_first (spotify_callbacks : nat) (names : list string)
  : Co unit :=
  match names with
  | [] => Step (DbusHandler_init spotify_callbacks None) Done
  | name :: names' =>
      if negb (name =? "")%string && String.prefix SPOTIFYD name
      then co_bind (SpotifydHandler_create name spotify_callbacks)
             (fun spotifyd_handler =>
                Step (DbusHandler_init spotify_callbacks
                        (Some spotifyd_handler)) Done)
      else connect_first spotify_callbacks names'
  end.

(** [DbusHandler.create] from line 97 on; [names] is what
    [call_list_names] answered. *)
Definition DbusHandler_create (names : list string) : Co unit :=
  Step new_dict (fun spotify_callbacks =>
  connect_first spotify_callbacks names).

(** [DbusHandler._on_name_owner_changed], lines 119 to 131: what follows
    the answer of [call_name_has_owner]. *)
Definition after_has_owner (name : string) (has_owner : bool) : Co unit :=
  Step read_spotify_handler (fun handler =>
  if match handler with
     | Some h => (bus_name h =? name)%string && negb has_owner
     | None => false
     end
  then Step (set_spotify_handler None) Done
  else if match handler with
          | None => has_owner
          | Some _ => false
          end
  then Step read_spotify_callbacks (fun callbacks =>
       co_bind (SpotifydHandler_create name callbacks) (fun h =>
       Step (set_spotify_handler (Some h)) Done))
  else Done tt).

(** [DbusHandler._on_name_owner_changed] *)
Definition on_name_owner_changed (name : string) : Co unit :=
  if (name =? "")%string || negb (String.prefix SPOTIFYD name)
  then Done tt
  else Wait (CallNameHasOwner name) (after_has_owner name).

(** [SpotifydHandler._on_properties_changed]: the loop over
    [changed_properties.items()]. *)
Fixpoint dispatch (d : Callbacks) (changed_properties : list (string * V))
  : Prog unit :=
  match changed_properties with
  | [] => Ret tt
  | (changed, value) :: rest =>
      match dict_get changed d with
      | Some callback => (callback value ;; dispatch d rest)%prog
      | None => dispatch d rest
      end
  end.

Definition on_properties_changed (s : Bus) (self : SpotifydHandler)
    (changed_properties : list (string * V)) : Prog unit :=
  dispatch (deref s (callbacks self)) changed_properties.

(** The bound methods [MainHandler.create] registers. *)
Variables playback_handler volume_handler : V -> Prog unit.

(** [MainHandler.create], lines 47 to 52, as far as dbus.py goes. *)
Definition startup (names : list string) : Co unit :=
  co_bind (DbusHandler_create names) (fun _ =>
  Step (register_spotify_callback PLAYBACK_STATUS playback_handler) (fun _ =>
  Step (register_spotify_callback VOLUME volume_handler) Done)).

(** A coroutine run up to its next call. *)
Inductive Parked (A : Type) : Type :=
| Over (a : A)
| Calling {X : Type} (c : Call X) (k : X -> Co A).

Arguments Over {A} a.
Arguments Calling {A X} c k.

Fixpoint co_advance {A} (p : Co A) (s : Bus) : Parked A * Bus :=
  match p with
  | Done a => (Over a, s)
  | Step m k => let (x, s') := m s in co_advance (k x) s'
  | Wait c k => (Calling c k, s)
  end.

(** A coroutine run to its end, every call returning: [has_owner] is what
    the bus answers. *)
Definition answer (has_owner : string -> bool) {X} (c : Call X) : X :=
  match c in Call X return X with
  | CallNameHasOwner name => has_owner name
  | Introspect _ => tt
  end.

Fixpoint co_run {A} (has_owner : string -> bool) (p : Co A) (s : Bus)
  : A * Bus :=
  match p with
  | Done a => (a, s)
  | Step m k => let (x, s') := m s in co_run has_owner (k x) s'
  | Wait c k => co_run has_owner (k (answer has_owner c)) s
  end.

(** Before [DbusHandler.create]. *)
Definition nothing : Bus :=
  {| dicts := []; subscribed := []; spotify_callbacks := O;
     spotify_handler := None |}.

(** The event loop of dbus.py: the objects and the coroutines waiting for
    the answer to a call. *)
Record System : Type := mkSystem {
  bus : Bus;
  calling : list (Parked unit)
}.

Definition park (others : list (Parked unit)) (s : Parked unit * Bus)
  : System :=
  match fst s with
  | Over _ => mkSystem (snd s) others
  | Calling c k => mkSystem (snd s) (others ++ [Calling c k])
  end.

Inductive Label : Type :=
| NameOwnerChanged (name : string)
| Returns {X : Type} (c : Call X) (x : X)
| Fails {X : Type} (c : Call X) (exc : string).

Inductive step : System -> Label -> System -> Prop :=
| step_signal name s ws :
    step (mkSystem s ws) (NameOwnerChanged name)
         (park ws (co_advance (on_name_owner_changed name) s))
| step_returns X (c : Call X) k x s l1 l2 :
    step (mkSystem s (l1 ++ Calling c k :: l2)) (Returns c x)
         (park (l1 ++ l2) (co_advance (k x) s))
| step_fails X (c : Call X) (k : X -> Co unit) exc s l1 l2 :
    step (mkSystem s (l1 ++ Calling c k :: l2)) (Fails c exc)
         (mkSystem s (l1 ++ l2)).

(** The loop starts once [startup] is over, its calls having returned. *)
Inductive reachable : System -> Prop :=
| reachable_init names :
    reachable (mkSystem (snd (co_run (fun _ => true) (startup names) nothing))
                 [])
| reachable_step s l s' :
    reachable s -> step s l s' -> reachable s'.

End Callbacks.

Arguments dicts {V} _.
Arguments subscribed {V} _.
Arguments spotify_callbacks {V} _.
Arguments spotify_handler {V} _.
Arguments dict_get {V} key d.
Arguments dict_set {V} key value d.
Arguments deref {V} s r.
Arguments store {V} r d l.
Arguments new_dict {V} _.
Arguments subscribe {V} self _.
Arguments DbusHandler_init {V} callbacks handler _.
Arguments read_spotify_handler {V} _.
Arguments read_spotify_callbacks {V} _.
Arguments set_spotify_handler {V} handler _.
Arguments register_spotify_callback {V} spotify_event handler _.
Arguments Done {V A} a.
Arguments Step {V A X} m k.
Arguments Wait {V A X} c k.
Arguments co_bind {V A B} p f.
Arguments SpotifydHandler_create {V} name callbacks.
Arguments connect_first {V} spotify_callbacks names.
Arguments DbusHandler_create {V} names.
Arguments after_has_owner {V} name has_owner.
Arguments on_name_owner_changed {V} name.
Arguments dispatch {V} d changed_properties.
Arguments on_properties_changed {V} s self changed_properties.
Arguments startup {V} playback_handler volume_handler names.
Arguments Over {V A} a.
Arguments Calling {V A X} c k.
Arguments co_advance {V A} p s.
Arguments co_run {V A} has_owner p s.
Arguments nothing {V}.
Arguments bus {V} _.
Arguments calling {V} _.
Arguments mkSystem {V} bus calling.
Arguments park {V} others s.
Arguments step {V} _ _ _.
Arguments reachable {V} playback_handler volume_handler _.

End Bus.

Import LinTronic Main.

(** ** lintronic.py on a stream with its limit

    [open_serial_connection] is called without a [limit], so the
    [StreamReader] has the default one, [2 ** 16]. [readuntil] then raises
    [LimitOverrunError] when more than that many bytes come before the
    separator; [readexactly] knows no limit. *)

Module Limited.

Definition LIMIT : Z := 65536.

(** [StreamReader.readuntil(separator)]: the data up to and including the
    first occurrence of the separator when at most [LIMIT] bytes come before
    it; [LimitOverrunError] when more do, [IncompleteReadError] when the
    stream ends before the separator. *)
Definition readuntil (separator : bytes) : Reader bytes :=
  fun s =>
    match LinTronic.readuntil separator s with
    | Some (data, rest) =>
        if Z.of_nat (length data - length separator) >? LIMIT then None
        else Some (data, rest)
    | None => None
    end.

Definition handle_incoming_message : Reader Handled :=
  to_address <~ readexactly 2 ;;
  if negb (bytes_eqb to_address OUR_ADDRESS)
  then ret_r (NotAddressedToUs to_address)
  else
    from_address <~ readexactly 2 ;;
    if negb (bytes_eqb from_address LINTRONIC_ADDRESS)
    then ret_r (NotFromLintronic from_address)
    else
      cmd <~ readexactly 3 ;;
      data_and_checksum <~ readuntil END_OF_TRANSMISSION ;;
      ret_r (validate_checksum to_address from_address cmd data_and_checksum).

Fixpoint listen_for_incoming_messages (fuel : nat) (s : bytes)
  : list Handled :=
  match fuel with
  | O => []
  | S fuel' =>
      match readuntil START_OF_TRANSMISSION s with
      | None => []
      | Some (_, s1) =>
          match handle_incoming_message s1 with
          | None => []
          | Some (h, s2) => h :: listen_for_incoming_messages fuel' s2
          end
      end
  end.

End Limited.

(** ** The vocabulary of the properties *)

(** A number below 1000 as three decimal digits. *)
Definition digits3 (n : Z) : bytes :=
  [digit (n / 100); digit (n / 10 mod 10); digit (n mod 10)].

(** No byte of [l] is the end marker. *)
Definition no_end (l : bytes) : Prop :=
  Forall (fun c => Byte.eqb ">" c = false) l.

(** The frames handed to the serial writer, oldest first. *)
Fixpoint emitted (l : list Action) : list bytes :=
  match l with
  | [] => []
  | WriterWrite message :: l' => message :: emitted l'
  | _ :: l' => emitted l'
  end.

(** The float 1.0. *)
Definition float_1_0 : spec_float := Eval cbv in binary64 1 0.

(** What cancelling [self.shutdown_timer_task], if there is one, records. *)
Definition cancellation (w : World) : list Action :=
  match shutdown_timer_task w with
  | Some task => [CancelledTask task]
  | None => []
  end.

(** The tasks once [self.shutdown_timer_task], if there is one, is
    cancelled. *)
Definition after_cancel (w : World) : list TaskState :=
  match shutdown_timer_task w with
  | Some task =>
      match nth_error (tasks w) task with
      | Some (Pending _) => set_nth task Cancelled (tasks w)
      | _ => tasks w
      end
  | None => tasks w
  end.

(** A pending task is the one [self.shutdown_timer_task] holds, and it is
    the task created last. *)
Definition timer_inv (w : World) : Prop :=
  forall task timeout,
    nth_error (tasks w) task = Some (Pending timeout) ->
    shutdown_timer_task w = Some task /\ S task = length (tasks w).

(** A synchronous stretch that forgets no task and keeps [timer_inv]. *)
Definition preserves {X} (m : Sync X) : Prop :=
  forall w,
    (length (tasks w) <= length (tasks (snd (m w))))%nat
    /\ (timer_inv w -> timer_inv (snd (m w))).

(** Every synchronous stretch of the coroutine does. *)
Inductive safe {A} : Prog A -> Prop :=
| safe_Ret a : safe (Ret a)
| safe_Atomic X (m : Sync X) k :
    preserves m -> (forall x, safe (k x)) -> safe (Atomic m k)
| safe_Await aw k : safe k -> safe (Await aw k).

(** The invariant of the event loop. *)
Definition system_inv (s : System) : Prop :=
  timer_inv (world s) /\ Forall (fun e => safe (snd e)) (waiting s).

(** ** The vocabulary of the further properties *)

(** [x] does not occur in [l]. *)
Definition no_byte (x : byte) (l : bytes) : Prop :=
  Forall (fun c => Byte.eqb x c = false) l.

(** The two markers. *)
Definition marker (x : byte) : Prop := x = "<"%byte \/ x = ">"%byte.

(** The bytes between the markers of a frame. *)
Definition frame (body : bytes) : bytes :=
  START_OF_TRANSMISSION ++ body ++ END_OF_TRANSMISSION.

(** What [handle_incoming_message] makes of a frame with this body. *)
Definition verdict (body : bytes) : Handled :=
  let to_address := firstn 2 body in
  let from_address := firstn 2 (skipn 2 body) in
  let cmd := firstn 3 (skipn 4 body) in
  if negb (bytes_eqb to_address OUR_ADDRESS)
  then NotAddressedToUs to_address
  else if negb (bytes_eqb from_address LINTRONIC_ADDRESS)
  then NotFromLintronic from_address
  else validate_checksum to_address from_address cmd
         (skipn 7 body ++ END_OF_TRANSMISSION).

(** The body of the frame [encode] makes. *)
Definition encoded_body (beo_command : BeoCommand) (repeat_count : Z)
  : bytes :=
  let msg := LINTRONIC_ADDRESS ++ OUR_ADDRESS ++ value beo_command
             ++ format_03 repeat_count ++ MAGIC_SUFFIX in
  msg ++ format_03 (byte_sum msg mod 256).

(** A stream of frames, each after some bytes of line noise, and what
    follows the last frame. *)
Definition stream (items : list (bytes * bytes)) (trailing : bytes) : bytes :=
  concat (map (fun item => fst item ++ frame (snd item)) items) ++ trailing.

(** A body long enough for the two addresses and the command code, and free
    of both markers. *)
Definition well_formed (body : bytes) : Prop :=
  (7 <= length body)%nat /\ no_byte "<" body /\ no_byte ">" body.

(** The value of a decimal digit and of a numeral, most significant digit
    first. *)
Definition digit_val (c : byte) : Z := byte_val c - 48.

Definition numeral (l : bytes) : Z :=
  fold_left (fun acc c => 10 * acc + digit_val c) l 0.

(** [int(...)] of the text [f"{n:03}"] is [n]: the sign, when there is one,
    comes first and the zeros of the padding do not count. *)
Definition int_of (l : bytes) : Z :=
  match l with
  | c :: l' => if Byte.eqb "-" c then - numeral l' else numeral l
  | [] => 0
  end.

(** Shorter than half the limit of the stream: what is left unread of one
    frame and the noise before the next then stay within the limit. *)
Definition short (l : bytes) : Prop :=
  2 * Z.of_nat (length l) < Limited.LIMIT.

(** A frame of the stream: the noise before it and its body. *)
Definition readable (item : bytes * bytes) : Prop :=
  no_byte "<" (fst item) /\ short (fst item)
  /\ well_formed (snd item) /\ short (snd item).

(** An audit of the record of actions: every action the event loop records
    satisfies [allowed]. *)
Section Audit.

Variable allowed : Action -> Prop.

Definition audited (w : World) : Prop := Forall allowed (log w).

(** A synchronous stretch that records allowed actions only. *)
Definition keeps {X} (m : Sync X) : Prop :=
  forall w, audited w -> audited (snd (m w)).

(** Every stretch and every await of the coroutine is allowed. *)
Inductive sound {A} : Prog A -> Prop :=
| sound_Ret a : sound (Ret a)
| sound_Atomic X (m : Sync X) k :
    keeps m -> (forall x, sound (k x)) -> sound (Atomic m k)
| sound_Await aw k : allowed (Awaiting aw) -> sound k -> sound (Await aw k).

Definition system_audited (s : System) : Prop :=
  audited (world s) /\ Forall (fun e => sound (snd e)) (waiting s).

End Audit.

(** The commands the coordinator sends, with their repeat counts. *)
Definition commands_used : list (BeoCommand * Z) :=
  [(VOLUME_UP, 1); (VOLUME_DOWN, 1); (VOLUME_DOWN, 10); (AUDIO_AUX, 1);
   (AUDIO_POWER_OFF, 1)].

(** What the coordinator is expected to do: write the frames of these
    commands, and create timers of 5 and of 15 minutes. *)
Definition expected (a : Action) : Prop :=
  match a with
  | WriterWrite message =>
      exists c, In c commands_used /\ message = encode (fst c) (snd c)
  | CreatedTask _ timeout =>
      timeout = FIVE_MINUTES \/ timeout = FIFTEEN_MINUTES
  | _ => True
  end.

(** The first name of spotifyd in the answer of [call_list_names]. *)
Definition first_spotifyd (names : list string) : option string :=
  find (fun name => negb (name =? "")%string
                    && String.prefix Bus.SPOTIFYD name) names.

(** The handler [SpotifydHandler.create] makes at [name] with the dict of the
    [DbusHandler]. *)
Definition handler_at (name : string) : Bus.SpotifydHandler :=
  Bus.mkSpotifydHandler name O.

Section Watch.

Context {V : Type}.
Variables playback_cb volume_cb : V -> Prog unit.

(** The dict once [MainHandler.create] has registered its two methods. *)
Definition registered : Bus.Callbacks V :=
  [("PlaybackStatus"%string, playback_cb); ("Volume"%string, volume_cb)].

(** There is one dict, it holds the two callbacks, every handler that was
    subscribed refers to it and is at a name of spotifyd, and the handler
    the [DbusHandler] holds is one of them. *)
Definition watch_inv (s : Bus.Bus V) : Prop :=
  Bus.spotify_callbacks s = O
  /\ Bus.dicts s = [registered]
  /\ Forall (fun h => Bus.callbacks h = O
                      /\ String.prefix Bus.SPOTIFYD (Bus.bus_name h) = true)
            (Bus.subscribed s)
  /\ (forall h, Bus.spotify_handler s = Some h -> In h (Bus.subscribed s)).

(** The coroutine, run from [s], keeps [watch_inv] at every call it waits
    for and at its end, in whatever state that keeps it the call returns. *)
Fixpoint fine_from {A} (p : Bus.Co V A) (s : Bus.Bus V) : Prop :=
  match p with
  | Bus.Done _ => watch_inv s
  | Bus.Step m k => let (x, s') := m s in fine_from (k x) s'
  | Bus.Wait _ k =>
      watch_inv s /\ forall x s', watch_inv s' -> fine_from (k x) s'
  end.

Definition fine_parked (e : Bus.Parked V unit) : Prop :=
  match e with
  | Bus.Calling _ k => forall x s, watch_inv s -> fine_from (k x) s
  | Bus.Over _ => True
  end.

Definition system_fine (s : Bus.System V) : Prop :=
  watch_inv (Bus.bus s) /\ Forall fine_parked (Bus.calling s).

(** What is left of a connection once [introspect] has answered: the
    handler is subscribed and then held. *)
Definition connecting (name : string) (r : nat) : unit -> Bus.Co V unit :=
  fun _ =>
    Bus.co_bind
      (Bus.Step (Bus.subscribe (Bus.mkSpotifydHandler name r))
         (fun _ => Bus.Done (Bus.mkSpotifydHandler name r)))
      (fun h => Bus.Step (Bus.set_spotify_handler (Some h)) Bus.Done).

(** The coroutines that wait for an answer of the bus are those of
    [_on_name_owner_changed], at one of its two awaits. *)
Definition shape (e : Bus.Parked V unit) : Prop :=
  match e with
  | Bus.Over _ => True
  | Bus.Calling c k =>
      match c in Bus.Call X return (X -> Bus.Co V unit) -> Prop with
      | Bus.CallNameHasOwner name => fun k => k = Bus.after_has_owner name
      | Bus.Introspect name => fun k => k = connecting name O
      end k
  end.

End Watch.

(** * Properties *)

(** ** The codec *)

Lemma bytes_eqb_eq (x y : bytes) : bytes_eqb x y = true <-> x = y.
Proof.
  revert y; induction x as [|c x IH]; intros [|d y]; simpl; split;
    try congruence; try reflexivity.
  - intros H. apply andb_true_iff in H as [Hc Hx].
    apply Byte.byte_dec_bl in Hc. apply IH in Hx. congruence.
  - intros H. injection H as -> ->. apply andb_true_iff. split.
    + now apply Byte.byte_dec_lb.
    + now apply IH.
Qed.

Lemma bytes_eqb_length (x y : bytes) :
  length x <> length y -> bytes_eqb x y = false.
Proof.
  intros H. destruct (bytes_eqb x y) eqn:E; [|reflexivity].
  apply bytes_eqb_eq in E. now subst.
Qed.

(** *** The format [03] in its range *)

Lemma fuel_ge (n : Z) (k : nat) :
  2 ^ Z.of_nat k <= n -> exists f, Z.to_nat (Z.log2 n) = (k + f)%nat.
Proof.
  intros H. assert (Z.of_nat k <= Z.log2 n) by (apply Z.log2_le_pow2; lia).
  exists (Z.to_nat (Z.log2 n) - k)%nat. lia.
Qed.

Lemma div10_nonzero (n : Z) : 10 <= n -> (n / 10 =? 0) = false.
Proof.
  intros H. apply Z.eqb_neq. intros E.
  pose proof (Z.div_mod n 10 ltac:(lia)) as D.
  pose proof (Z.mod_pos_bound n 10 ltac:(lia)). lia.
Qed.

Lemma div10_range (n lo hi : Z) :
  10 * lo <= n < 10 * hi -> lo <= n / 10 < hi.
Proof.
  intros H. split.
  - apply Z.div_le_lower_bound; lia.
  - apply Z.div_lt_upper_bound; lia.
Qed.

Lemma decimal_1 (n : Z) : 0 <= n < 10 -> decimal n = [digit n].
Proof.
  intros H. unfold decimal. cbn [decimal_digits].
  rewrite Z.mod_small, Z.div_small by lia. reflexivity.
Qed.

Lemma decimal_2 (n : Z) :
  10 <= n < 100 -> decimal n = [digit (n / 10); digit (n mod 10)].
Proof.
  intros H. unfold decimal.
  destruct (fuel_ge n 1) as [f ->]; [simpl; lia|].
  cbn [decimal_digits Nat.add].
  rewrite div10_nonzero by lia.
  pose proof (div10_range n 1 10 ltac:(lia)).
  rewrite (Z.div_small (n / 10)), (Z.mod_small (n / 10)) by lia. reflexivity.
Qed.

Lemma decimal_3 (n : Z) : 100 <= n < 1000 -> decimal n = digits3 n.
Proof.
  intros H. unfold decimal, digits3.
  destruct (fuel_ge n 2) as [f ->]; [simpl; lia|].
  cbn [decimal_digits Nat.add].
  pose proof (div10_range n 10 100 ltac:(lia)).
  pose proof (div10_range (n / 10) 1 10 ltac:(lia)).
  rewrite (div10_nonzero n), (div10_nonzero (n / 10)) by lia.
  rewrite (Z.div_small (n / 10 / 10)), (Z.mod_small (n / 10 / 10)) by lia.
  rewrite Z.div_div by lia. reflexivity.
Qed.

(** From 0 to 999 the format [03] writes exactly the three decimal digits. *)
Lemma format_03_digits3 (n : Z) : 0 <= n <= 999 -> format_03 n = digits3 n.
Proof.
  intros H. unfold format_03.
  destruct (n <? 0) eqn:E; [apply Z.ltb_lt in E; lia|].
  destruct (Z_lt_le_dec n 10); [|destruct (Z_lt_le_dec n 100)].
  - rewrite decimal_1 by lia. unfold digits3.
    rewrite (Z.div_small n 100), (Z.div_small n 10), (Z.mod_small n 10) by lia.
    reflexivity.
  - rewrite decimal_2 by lia. unfold digits3.
    pose proof (div10_range n 1 10 ltac:(lia)).
    rewrite (Z.div_small n 100), (Z.mod_small (n / 10) 10) by lia.
    reflexivity.
  - now rewrite decimal_3 by lia.
Qed.

(** The checksum always has three digits. *)
Lemma format_03_mod_256 (s : Z) : format_03 (s mod 256) = digits3 (s mod 256).
Proof.
  apply format_03_digits3. pose proof (Z.mod_pos_bound s 256 ltac:(lia)). lia.
Qed.

(** A repeat count outside 0..999 does not give three digits: the format
    [03] is a minimum width.  For 1000 the writer gets a count of four
    bytes and for -1 the bytes "-01"; the frame of 1000 is one byte longer
    than any frame with a three-byte count and a three-byte checksum. *)
Lemma C2_counterexample :
  let w := MainHandler_init None in
  log (snd (run [] (write_message_to_lintronic VOLUME_UP 1000) w))
  = [WriterWrite (b "<01000402550100107010000960000000000001000024113>");
     Awaiting Drain]
  /\ log (snd (run [] (write_message_to_lintronic VOLUME_UP (-1)) w))
     = [WriterWrite (b "<0100040255010010701000096000000000000-01024062>");
        Awaiting Drain]
  /\ forall count checksum : bytes,
       length count = 3%nat -> length checksum = 3%nat ->
       encode VOLUME_UP 1000
       <> START_OF_TRANSMISSION ++ b "01" ++ b "00" ++ value VOLUME_UP
          ++ count ++ b "024" ++ checksum ++ END_OF_TRANSMISSION.
Proof.
  split; [reflexivity|]. split; [reflexivity|].
  intros count checksum Hcount Hchecksum E.
  apply (f_equal (@length byte)) in E.
  rewrite !length_app, Hcount, Hchecksum in E. discriminate E.
Qed.

(** C2, amended. For every command and every repeat count from 0 to 999,
    [write_message_to_lintronic] hands the writer exactly: the start
    marker, the destination address "01", the source address "00", the
    command's blob, the three decimal digits of the repeat count, the magic
    suffix "024", the sum of the bytes from the destination address to the
    magic suffix modulo 256 as three decimal digits, and the end marker. *)
Theorem C2_write_message_frame_layout
    (beo_command : BeoCommand) (repeat_count : Z)
    (outs : list Outcome) (w : World) :
  0 <= repeat_count <= 999 ->
  let body :=
    b "01" ++ b "00" ++ value beo_command ++ digits3 repeat_count
    ++ b "024" in
  let frame :=
    START_OF_TRANSMISSION ++ body ++ digits3 (byte_sum body mod 256)
    ++ END_OF_TRANSMISSION in
  log (snd (run outs (write_message_to_lintronic beo_command repeat_count) w))
  = log w ++ [WriterWrite frame; Awaiting Drain].
Proof.
  intros Hcount body frame.
  assert (E : encode beo_command repeat_count = frame).
  { unfold encode. now rewrite format_03_mod_256, format_03_digits3. }
  unfold write_message_to_lintronic. rewrite E.
  destruct outs as [|[|exc] outs]; cbn; now rewrite <- app_assoc.
Qed.

(** The frame of VOLUME_DOWN repeated 10 times, byte for byte. *)
Lemma C2_witness :
  log (snd (run [] (write_message_to_lintronic VOLUME_DOWN 10)
              (MainHandler_init None)))
  = [WriterWrite (b "<0100040255010010701001100000000000000010024052>");
     Awaiting Drain].
Proof.
  apply (C2_write_message_frame_layout VOLUME_DOWN 10 []
           (MainHandler_init None)).
  lia.
Defined.

(** *** Reading a frame back *)

Lemma digit_no_end (d : Z) : Byte.eqb ">" (digit d) = false.
Proof.
  unfold digit.
  repeat match goal with
         | |- context [match ?x with _ => _ end] => destruct x
         end; reflexivity.
Qed.

Lemma no_end_app (x y : bytes) : no_end x -> no_end y -> no_end (x ++ y).
Proof. intros Hx Hy. apply Forall_app. now split. Qed.

Lemma decimal_digits_no_end (fuel : nat) :
  forall n acc, no_end acc -> no_end (decimal_digits fuel n acc).
Proof.
  induction fuel as [|fuel IH]; intros n acc Hacc; simpl; [assumption|].
  assert (no_end (digit (n mod 10) :: acc))
    by (constructor; [apply digit_no_end | assumption]).
  destruct (n / 10 =? 0); auto.
Qed.

Lemma zero_pad_no_end (width : nat) (ds : bytes) :
  no_end ds -> no_end (zero_pad width ds).
Proof.
  intros H. unfold zero_pad. apply no_end_app; [|assumption].
  induction (width - length ds)%nat; simpl; constructor; auto.
Qed.

Lemma format_03_no_end (n : Z) : no_end (format_03 n).
Proof.
  unfold format_03, decimal.
  destruct (n <? 0); [constructor; [reflexivity|]|];
    apply zero_pad_no_end, decimal_digits_no_end; constructor.
Qed.

Lemma digits3_no_end (n : Z) : no_end (digits3 n).
Proof. repeat constructor; apply digit_no_end. Qed.

Lemma readuntil_end (data rest : bytes) :
  no_end data ->
  readuntil END_OF_TRANSMISSION (data ++ END_OF_TRANSMISSION ++ rest)
  = Some (data ++ END_OF_TRANSMISSION, rest).
Proof.
  change END_OF_TRANSMISSION with [">"%byte].
  induction 1 as [|c data Hc _ IH]; [reflexivity|].
  simpl in *. rewrite Hc, IH. reflexivity.
Qed.

Lemma firstn_length_app {A} (l r : list A) : firstn (length l) (l ++ r) = l.
Proof. induction l; simpl; congruence. Qed.

Lemma skipn_length_app {A} (l r : list A) : skipn (length l) (l ++ r) = r.
Proof. induction l; simpl; congruence. Qed.

Lemma readexactly_app (p s : bytes) :
  readexactly (length p) (p ++ s) = Some (p, s).
Proof.
  unfold readexactly. rewrite length_app.
  replace (length p + length s <? length p)%nat with false
    by (symmetry; apply Nat.ltb_ge; lia).
  now rewrite firstn_length_app, skipn_length_app.
Qed.

(** The slices of [data ++ checksum ++ end marker]. *)
Section Slices.
Variables (data : bytes) (c1 c2 c3 e : byte).

Let tail : bytes := data ++ [c1; c2; c3] ++ [e].

Lemma slice_data : slice_to_last 4 tail = data.
Proof.
  unfold slice_to_last, tail. rewrite length_app. simpl length.
  replace (length data + 4 - 4)%nat with (length data) by lia.
  apply firstn_length_app.
Qed.

Lemma slice_but_end : firstn (length tail - 1) tail = data ++ [c1; c2; c3].
Proof.
  unfold tail. rewrite app_assoc, length_app. simpl length.
  replace (length (data ++ [c1; c2; c3]) + 1 - 1)%nat
    with (length (data ++ [c1; c2; c3])) by lia.
  apply firstn_length_app.
Qed.

(** [[-4:-1]]: the three bytes before the end marker. *)
Lemma slice_three : slice_last 4 1 tail = [c1; c2; c3].
Proof.
  unfold slice_last. rewrite slice_but_end.
  unfold tail. rewrite length_app. simpl length.
  replace (length data + 4 - 4)%nat with (length data) by lia.
  apply skipn_length_app.
Qed.

(** [[-3:-1]]: the last two of them. *)
Lemma slice_two : slice_last 3 1 tail = [c2; c3].
Proof.
  unfold slice_last. rewrite slice_but_end.
  unfold tail. rewrite length_app. simpl length.
  replace (length data + 4 - 3)%nat with (length (data ++ [c1])).
  - change (data ++ [c1; c2; c3]) with (data ++ [c1] ++ [c2; c3]).
    rewrite app_assoc. apply skipn_length_app.
  - rewrite length_app. simpl. lia.
Qed.
End Slices.

(** [[-3:-1]] never holds more than two bytes. *)
Lemma slice_last_3_1_length (l : bytes) : (length (slice_last 3 1 l) <= 2)%nat.
Proof.
  unfold slice_last. rewrite length_skipn, length_firstn. lia.
Qed.

Lemma value_split (c : BeoCommand) :
  exists rest, value c = b "040" ++ rest /\ no_end rest.
Proof.
  destruct c; eexists; (split; [reflexivity|]); repeat constructor.
Qed.

(** Whatever was read, the comparison of line 74 fails: the slice of line 69
    has at most two bytes, the expected checksum has three. *)
Lemma validate_checksum_never_accepts
    (to_address from_address cmd data_and_checksum : bytes) :
  validate_checksum to_address from_address cmd data_and_checksum
  = InvalidChecksum
      (slice_last 3 1 data_and_checksum)
      (digits3 (byte_sum (to_address ++ from_address ++ cmd
                          ++ slice_to_last 4 data_and_checksum) mod 256)).
Proof.
  unfold validate_checksum. rewrite format_03_mod_256.
  rewrite bytes_eqb_length; [reflexivity|].
  pose proof (slice_last_3_1_length data_and_checksum). simpl. lia.
Qed.

(** So the receive path never reaches its [logger.info]. *)
Lemma handle_incoming_message_never_accepts
    (s cmd data rest : bytes) :
  handle_incoming_message s <> Some (GotCmd cmd data, rest).
Proof.
  unfold handle_incoming_message, bind_r, ret_r.
  destruct (readexactly 2 s) as [[to_address s1]|]; [|discriminate].
  destruct (negb (bytes_eqb to_address OUR_ADDRESS)); [discriminate|].
  destruct (readexactly 2 s1) as [[from_address s2]|]; [|discriminate].
  destruct (negb (bytes_eqb from_address LINTRONIC_ADDRESS)); [discriminate|].
  destruct (readexactly 3 s2) as [[cmd' s3]|]; [|discriminate].
  destruct (readuntil END_OF_TRANSMISSION s3) as [[dc s4]|]; [|discriminate].
  rewrite validate_checksum_never_accepts. discriminate.
Qed.

(** C1. For every command and repeat count, the frame of [encode] read back
    (destination, source, command code, then the rest up to the end marker)
    carries, in the three bytes before the end marker, the checksum that is
    recomputed over destination, source, command and payload.  The receive
    path does not accept it all the same: [validate_checksum] compares the
    recomputed three bytes with the slice [-3:-1] of what it read, which is
    only the last two bytes of the transmitted checksum. *)
Theorem C1_checksum_validation_rejects_encoded_frame
    (beo_command : BeoCommand) (repeat_count : Z) :
  exists cmd data_and_checksum,
    read_fields (encode beo_command repeat_count)
    = Some ((LINTRONIC_ADDRESS, OUR_ADDRESS, cmd, data_and_checksum), [])
    /\ let data := slice_to_last 4 data_and_checksum in
       let transmitted := slice_last 4 1 data_and_checksum in
       let msg := LINTRONIC_ADDRESS ++ OUR_ADDRESS ++ cmd ++ data in
       let recomputed := format_03 (byte_sum msg mod 256) in
       length transmitted = 3%nat
       /\ recomputed = transmitted
       /\ validate_checksum LINTRONIC_ADDRESS OUR_ADDRESS cmd data_and_checksum
          = InvalidChecksum (slice_last 3 1 data_and_checksum) transmitted
       /\ length (slice_last 3 1 data_and_checksum) = 2%nat.
Proof.
  destruct (value_split beo_command) as (rest & Hv & Hrest).
  set (data := rest ++ format_03 repeat_count ++ MAGIC_SUFFIX).
  set (s := byte_sum (LINTRONIC_ADDRESS ++ OUR_ADDRESS ++ b "040" ++ data)).
  assert (Henc : encode beo_command repeat_count
                 = b "<" ++ b "01" ++ b "00" ++ b "040"
                   ++ (data ++ digits3 (s mod 256))
                   ++ END_OF_TRANSMISSION ++ []).
  { unfold encode. rewrite Hv, format_03_mod_256. subst s data.
    unfold LINTRONIC_ADDRESS, OUR_ADDRESS, START_OF_TRANSMISSION.
    rewrite <- !app_assoc. reflexivity. }
  assert (Hne : no_end (data ++ digits3 (s mod 256))).
  { subst data. repeat apply no_end_app;
      auto using format_03_no_end, digits3_no_end.
    repeat constructor. }
  exists (b "040"), ((data ++ digits3 (s mod 256)) ++ END_OF_TRANSMISSION).
  split.
  - rewrite Henc. unfold read_fields, bind_r.
    change (readuntil START_OF_TRANSMISSION (b "<" ++ ?x))
      with (Some (b "<", x)).
    cbn iota.
    rewrite (readexactly_app (b "01")), (readexactly_app (b "00")),
      (readexactly_app (b "040")), (readuntil_end _ [] Hne).
    reflexivity.
  - cbv zeta. unfold validate_checksum, digits3.
    change END_OF_TRANSMISSION with [">"%byte]. rewrite <- app_assoc.
    rewrite slice_data, slice_three, slice_two.
    fold s. rewrite format_03_mod_256. unfold digits3.
    rewrite bytes_eqb_length by (simpl; lia).
    repeat split; reflexivity.
Qed.

(** The frame of VOLUME_UP, and the same payload sent by the LinTronic to
    us with its checksum 065: both are turned away. *)
Example encoded_frame_not_addressed_to_us :
  handle_incoming_message (skipn 1 (encode VOLUME_UP 1))
  = Some (NotAddressedToUs (b "01"),
          b "00040255010010701000096000000000000001024065>").
Proof. reflexivity. Qed.

Example inbound_frame_with_valid_checksum_rejected :
  byte_sum (b "0001040255010010701000096000000000000001024") mod 256 = 65
  /\ handle_incoming_message
       (b "0001040255010010701000096000000000000001024065>")
     = Some (InvalidChecksum (b "65") (b "065"), []).
Proof. split; reflexivity. Qed.

(** ** The coordinator *)

Lemma emitted_app (l l' : list Action) :
  emitted (l ++ l') = emitted l ++ emitted l'.
Proof.
  induction l as [|a l IH]; [reflexivity|].
  destruct a; simpl; now rewrite IH.
Qed.

(** *** Comparing floats *)

Lemma SFcompare_antisym (x y : spec_float) :
  SFcompare y x = option_map CompOpp (SFcompare x y).
Proof.
  destruct x as [sx|sx| |sx mx ex], y as [sy|sy| |sy my ey]; simpl;
    try reflexivity;
    try (destruct sx; reflexivity); try (destruct sy; reflexivity);
    try (destruct sx, sy; reflexivity).
  change (Pos.compare_cont Eq my mx) with (Pos.compare_cont (CompOpp Eq) my mx).
  rewrite <- (Pos.compare_cont_antisym mx my Eq), (Z.compare_antisym ex ey).
  destruct sx, sy; try reflexivity; destruct (ex ?= ey); simpl;
    try reflexivity.
Qed.

(** [x <= y] excludes [y < x]. *)
Lemma SFleb_not_gt (x y : spec_float) :
  SFleb x y = true -> SFltb y x = false.
Proof.
  unfold SFleb, SFltb. rewrite (SFcompare_antisym x y).
  destruct (SFcompare x y) as [[]|]; simpl; congruence.
Qed.

(** [x == y] excludes [y < x]. *)
Lemma SFeqb_not_gt (x y : spec_float) :
  SFeqb x y = true -> SFltb y x = false.
Proof.
  unfold SFeqb, SFltb. rewrite (SFcompare_antisym x y).
  destruct (SFcompare x y) as [[]|]; simpl; congruence.
Qed.

(** *** Volume *)

Ltac ev := cbn -[encode start_shutdown_timer cancel_shutdown_timer_task].

Ltac norm_log := rewrite <- ?app_assoc; ev.

Lemma volume_handler_emitted
    (volume : spec_float) (outs : list Outcome) (w : World) :
  emitted (log (snd (run outs (volume_handler volume) w)))
  = emitted (log w)
    ++ [encode (if SFltb (last_known_volume (state w)) volume
                then VOLUME_UP else VOLUME_DOWN) 1].
Proof.
  unfold volume_handler. ev.
  destruct (SFltb (last_known_volume (state w)) volume);
    destruct outs as [|[|exc] outs]; ev;
    rewrite ?emitted_app; ev; now rewrite ?app_nil_r.
Qed.

(** C3. For every new volume and every state of the coordinator, whatever
    becomes of the write, [volume_handler] hands the writer exactly one
    frame: that of VOLUME_UP when the new volume is greater than the last
    known one, that of VOLUME_DOWN otherwise, in particular when the two are
    equal. *)
Theorem C3_volume_handler_emits_one_command
    (volume : spec_float) (outs : list Outcome) (w : World) :
  let last := last_known_volume (state w) in
  let w' := snd (run outs (volume_handler volume) w) in
  emitted (log w')
  = emitted (log w)
    ++ [encode (if SFltb last volume then VOLUME_UP else VOLUME_DOWN) 1]
  /\ (SFeqb volume last = true ->
      emitted (log w') = emitted (log w) ++ [encode VOLUME_DOWN 1]).
Proof.
  intros last w'. subst last w'. split.
  - apply volume_handler_emitted.
  - intros Heq.
    now rewrite volume_handler_emitted, (SFeqb_not_gt _ _ Heq).
Qed.

(** 0.5 after 0.5: VOLUME_DOWN. *)
Lemma C3_witness :
  emitted (log (snd (run [] (volume_handler float_0_5)
                       (MainHandler_init None))))
  = [encode VOLUME_DOWN 1].
Proof.
  exact (proj2 (C3_volume_handler_emits_one_command
                  float_0_5 [] (MainHandler_init None)) eq_refl).
Defined.

(** The write of the command raises: the frame went to the writer, the
    exception leaves [volume_handler], line 74 is not reached. *)
Lemma C4_counterexample :
  let w := MainHandler_init None in
  let failed :=
    run [Raises "ConnectionResetError"] (volume_handler float_1_0) w in
  fst failed = Raised "ConnectionResetError"
  /\ emitted (log (snd failed)) = [encode VOLUME_UP 1]
  /\ last_known_volume (state (snd failed)) = float_0_5
  /\ last_known_volume (state (snd failed)) <> float_1_0.
Proof. repeat split. discriminate. Qed.

(** C4, amended. For every new volume, [volume_handler] sets
    [last_known_volume] to it whichever command it sent, when the write of
    the command completes; when the write raises, the exception leaves
    [volume_handler] and [last_known_volume] keeps its value. *)
Theorem C4_volume_updated_when_write_completes
    (volume : spec_float) (outs : list Outcome) (w : World) :
  let done := run outs (volume_handler volume) w in
  match outs with
  | Raises exc :: _ =>
      fst done = Raised exc
      /\ last_known_volume (state (snd done)) = last_known_volume (state w)
  | _ =>
      fst done = Returned tt
      /\ last_known_volume (state (snd done)) = volume
  end.
Proof.
  unfold volume_handler. ev.
  destruct (SFltb (last_known_volume (state w)) volume);
    destruct outs as [|[|exc] outs]; ev; split; reflexivity.
Qed.

(** *** Cancelling and arming in closed form *)

Lemma length_set_nth (n : nat) (x : TaskState) (l : list TaskState) :
  length (set_nth n x l) = length l.
Proof.
  revert n; induction l as [|y l IH]; intros [|n]; simpl; auto.
Qed.

Lemma nth_error_set_nth (n : nat) (x : TaskState) (l : list TaskState) :
  (n < length l)%nat -> nth_error (set_nth n x l) n = Some x.
Proof.
  revert n; induction l as [|y l IH]; intros [|n] H; simpl in *;
    try lia; [reflexivity | apply IH; lia].
Qed.

Lemma nth_error_set_nth_other
    (n m : nat) (x : TaskState) (l : list TaskState) :
  n <> m -> nth_error (set_nth n x l) m = nth_error l m.
Proof.
  revert n m; induction l as [|y l IH]; intros [|n] [|m] H; simpl;
    try reflexivity; [congruence | apply IH; congruence].
Qed.

(** A task set to [Cancelled] or [Fired] is not pending; the others are what
    they were. *)
Lemma nth_error_set_nth_pending
    (l : list TaskState) (x : TaskState) (task t : nat) timeout :
  (forall t', x <> Pending t') ->
  nth_error (set_nth task x l) t = Some (Pending timeout) ->
  t <> task /\ nth_error l t = Some (Pending timeout).
Proof.
  intros Hx H. destruct (Nat.eq_dec task t) as [->|Hne].
  - exfalso. destruct (Nat.lt_ge_cases t (length l)) as [Hlt|Hge].
    + rewrite nth_error_set_nth in H by assumption.
      injection H as ->. now apply (Hx timeout).
    + assert (nth_error (set_nth t x l) t = None)
        by (apply nth_error_None; now rewrite length_set_nth).
      congruence.
  - rewrite nth_error_set_nth_other in H by assumption. auto.
Qed.

Lemma nth_error_snoc {A} (l : list A) (x : A) :
  nth_error (l ++ [x]) (length l) = Some x.
Proof. induction l; simpl; auto. Qed.

Lemma length_after_cancel (w : World) :
  length (after_cancel w) = length (tasks w).
Proof.
  unfold after_cancel.
  destruct (shutdown_timer_task w) as [task|]; [|reflexivity].
  destruct (nth_error (tasks w) task) as [[| |]|]; auto using length_set_nth.
Qed.

Lemma nth_error_after_cancel (w : World) (x : TaskState) (n : nat) :
  n = length (tasks w) -> nth_error (after_cancel w ++ [x]) n = Some x.
Proof.
  intros ->. rewrite <- length_after_cancel. apply nth_error_snoc.
Qed.

Lemma not_pending_after_cancel (w : World) (task : nat) :
  shutdown_timer_task w = Some task ->
  forall timeout, nth_error (after_cancel w) task <> Some (Pending timeout).
Proof.
  intros H timeout. unfold after_cancel. rewrite H.
  destruct (nth_error (tasks w) task) as [[t| |]|] eqn:E;
    rewrite ?E; try discriminate.
  rewrite nth_error_set_nth; [discriminate|].
  apply nth_error_Some. congruence.
Qed.

Lemma cancel_shutdown_timer_task_eq (w : World) :
  cancel_shutdown_timer_task w
  = (tt, {| state := state w;
            shutdown_timer_task := shutdown_timer_task w;
            spotify_handler := spotify_handler w;
            tasks := after_cancel w;
            log := log w ++ cancellation w |}).
Proof.
  unfold cancel_shutdown_timer_task, sync_bind, read_shutdown_timer_task,
    after_cancel, cancellation.
  destruct w as [st [task|] sp ts lg]; cbn; [reflexivity|].
  now rewrite app_nil_r.
Qed.

Lemma start_shutdown_timer_eq (timeout : timedelta) (w : World) :
  start_shutdown_timer timeout w
  = (tt, {| state := state w;
            shutdown_timer_task := Some (length (tasks w));
            spotify_handler := spotify_handler w;
            tasks := after_cancel w ++ [Pending timeout];
            log := log w ++ cancellation w
                   ++ [CreatedTask (length (tasks w)) timeout] |}).
Proof.
  unfold start_shutdown_timer, sync_bind.
  rewrite cancel_shutdown_timer_task_eq.
  cbn. unfold set_shutdown_timer_task, record. cbn.
  rewrite length_after_cancel, <- app_assoc. reflexivity.
Qed.

Ltac timers :=
  rewrite ?start_shutdown_timer_eq, ?cancel_shutdown_timer_task_eq.

Ltac finish :=
  repeat split;
  first [reflexivity | apply nth_error_after_cancel; reflexivity].

(** *** Playback *)

(** C6. [playback_handler("Paused")] with last known status Stopped sends
    AUDIO_AUX and then arms the 15-minute timer (once the write is over);
    with last known status Playing it sends nothing and arms the 15-minute
    timer.  Arming cancels the timer held before.  In both cases the last
    known status is Paused at the end, set after the timer is armed. *)
Theorem C6_paused_after_stopped_or_playing (outs : list Outcome) (w : World) :
  let last := last_known_playback_status (state w) in
  let new_task := length (tasks w) in
  let armed w' :=
    shutdown_timer_task w' = Some new_task
    /\ nth_error (tasks w') new_task = Some (Pending (minutes 15))
    /\ last_known_playback_status (state w') = PAUSED in
  (last = STOPPED ->
   let done := run [] (playback_handler "Paused") w in
   fst done = Returned tt
   /\ log (snd done)
      = log w ++ [WriterWrite (encode AUDIO_AUX 1); Awaiting Drain]
        ++ cancellation w
        ++ [CreatedTask new_task (minutes 15); SetStatus PAUSED]
   /\ armed (snd done))
  /\ (last = PLAYING ->
      let done := run outs (playback_handler "Paused") w in
      fst done = Returned tt
      /\ log (snd done)
         = log w ++ cancellation w
           ++ [CreatedTask new_task (minutes 15); SetStatus PAUSED]
      /\ armed (snd done)).
Proof.
  intros last new_task armed; subst last new_task armed.
  unfold playback_handler.
  split; intros Hlast; repeat first [rewrite Hlast | progress ev];
    timers; ev; norm_log; finish.
Qed.

(** "Paused" after "Stopped", and "Paused" after "Playing", from the start. *)
Lemma C6_witness :
  let init := MainHandler_init None in
  let stopped := snd (run [] (playback_handler "Stopped") init) in
  let playing := snd (run [] (playback_handler "Playing") init) in
  log (snd (run [] (playback_handler "Paused") stopped))
  = [CreatedTask 0 (minutes 5); SetStatus STOPPED;
     WriterWrite (encode AUDIO_AUX 1); Awaiting Drain;
     CancelledTask 0; CreatedTask 1 (minutes 15); SetStatus PAUSED]
  /\ log (snd (run [] (playback_handler "Paused") playing))
     = [WriterWrite (encode AUDIO_AUX 1); Awaiting Drain; SetStatus PLAYING;
        CreatedTask 0 (minutes 15); SetStatus PAUSED].
Proof.
  intros init stopped playing. split.
  - exact (proj1 (proj2 (proj1
             (C6_paused_after_stopped_or_playing [] stopped) eq_refl))).
  - exact (proj1 (proj2 (proj2
             (C6_paused_after_stopped_or_playing [] playing) eq_refl))).
Defined.

(** *** The shutdown timer on waking *)

(** C7. For every timeout, [shutdown_timer] first sleeps for it; on waking
    it sends AUDIO_POWER_OFF if and only if the last known status is then
    Paused or Stopped; for Playing and Unknown it logs a warning, sends
    nothing and changes nothing. *)
Theorem C7_shutdown_timer_wake
    (timeout : timedelta) (outs : list Outcome) (w : World) :
  let status := last_known_playback_status (state w) in
  let wake := resumed (shutdown_timer timeout) in
  let done := run outs wake w in
  shutdown_timer timeout = Await (Sleep (total_seconds timeout)) wake
  /\ (emitted (log (snd done))
      = emitted (log w) ++ [encode AUDIO_POWER_OFF 1]
      <-> status = PAUSED \/ status = STOPPED)
  /\ match status with
     | PAUSED | STOPPED =>
         log (snd done)
         = log w ++ [WriterWrite (encode AUDIO_POWER_OFF 1); Awaiting Drain]
     | PLAYING | UNKNOWN =>
         fst done = Returned tt
         /\ log (snd done)
            = log w ++ [Warned (TimerWokeNotPausedOrStopped status)]
     end
  /\ state (snd done) = state w
  /\ tasks (snd done) = tasks w
  /\ shutdown_timer_task (snd done) = shutdown_timer_task w.
Proof.
  intros status wake done; subst status wake done.
  split; [reflexivity|].
  unfold shutdown_timer. ev.
  destruct (last_known_playback_status (state w));
    destruct outs as [|[|exc] outs]; ev; norm_log;
    rewrite ?emitted_app; ev; rewrite ?app_nil_r;
    (split; [split; [intros E | intros [E|E]; try discriminate E; reflexivity]
            | repeat split; reflexivity]);
    try (left; reflexivity); try (right; reflexivity);
    exfalso; symmetry in E;
    rewrite <- (app_nil_r (emitted (log w))) in E at 2;
    apply app_inv_head in E; discriminate E.
Qed.

(** *** Power off *)

(** C8. In every state of the coordinator, [power_off_handler], its awaits
    completing, does in this order: it sends VOLUME_DOWN with repeat count
    10; sleeps 1 second; awaits the pause call of the player session if
    there is one, and otherwise logs a warning and awaits nothing; sends
    AUDIO_POWER_OFF; sets the last known status to Paused; cancels the
    shutdown timer if one is held. *)
Theorem C8_power_off_sequence (w : World) :
  let done := run [] power_off_handler w in
  let pause_or_warning :=
    match spotify_handler w with
    | Some handler => Awaiting (CallPause (bus_name handler))
    | None => Warned NoConnectionWithSpotifyd
    end in
  fst done = Returned tt
  /\ log (snd done)
     = log w
       ++ [WriterWrite (encode VOLUME_DOWN 10); Awaiting Drain;
           Awaiting (Sleep 1);
           pause_or_warning;
           WriterWrite (encode AUDIO_POWER_OFF 1); Awaiting Drain;
           SetStatus PAUSED]
       ++ cancellation w
  /\ last_known_playback_status (state (snd done)) = PAUSED
  /\ tasks (snd done) = after_cancel w
  /\ match shutdown_timer_task w with
     | Some task => ~ pending (snd done) task
     | None => tasks (snd done) = tasks w
     end.
Proof.
  intros done pause_or_warning; subst done pause_or_warning.
  unfold power_off_handler, Dbus.send_spotify_command, Dbus.send_command.
  ev. destruct (spotify_handler w) as [handler|] eqn:Hs; ev; timers; ev;
    norm_log; (repeat split; try reflexivity);
    destruct (shutdown_timer_task w) as [task|] eqn:Ht;
    try reflexivity;
    intros [timeout Hp]; cbn [tasks] in Hp; revert Hp;
    apply not_pending_after_cancel; reflexivity.
Qed.

(** *** Unknown statuses and the short circuit *)

Lemma PlaybackStatus_of_value (s : PlaybackStatus) :
  PlaybackStatus_of (status_value s) = Some s.
Proof. destruct s; reflexivity. Qed.

Lemma log_longer (w w' : World) :
  (length (log w) < length (log w'))%nat -> w' <> w.
Proof. intros H ->. lia. Qed.

(** C9. For every string that is no value of the status enum,
    [playback_handler] logs a warning, sends nothing, sets the last known
    status to Unknown and returns.  And for every string, [playback_handler]
    returns at once and leaves everything as it was exactly when the string
    equals the value of the last known status. *)
Theorem C9_unknown_status_and_short_circuit
    (status : string) (outs : list Outcome) (w : World) :
  let done := run outs (playback_handler status) w in
  (PlaybackStatus_of status = None ->
   fst done = Returned tt
   /\ log (snd done)
      = log w ++ [Warned (UnknownPlaybackStatus status); SetStatus UNKNOWN]
   /\ emitted (log (snd done)) = emitted (log w)
   /\ last_known_playback_status (state (snd done)) = UNKNOWN)
  /\ (done = (Returned tt, w)
      <-> status = status_value (last_known_playback_status (state w))).
Proof.
  intros done; subst done. unfold playback_handler. ev.
  destruct (String.eqb_spec status
              (status_value (last_known_playback_status (state w))))
    as [Heq|Hne].
  - split; [|tauto].
    intros Hnone. rewrite Heq, PlaybackStatus_of_value in Hnone.
    discriminate Hnone.
  - split.
    + intros ->. ev. norm_log. rewrite emitted_app, app_nil_r. auto.
    + split; [|tauto]. intros E. exfalso.
      apply (f_equal snd) in E. revert E. apply log_longer.
      destruct (PlaybackStatus_of status) as [[| | |]|]; ev;
        try destruct (PlaybackStatus_eqb
                        (last_known_playback_status (state w)) STOPPED);
        try destruct outs as [|[|exc] outs]; ev; timers; ev;
        rewrite ?length_app; simpl; lia.
Qed.

(** "foo" when the last known status is Playing. *)
Lemma C9_witness :
  let init := MainHandler_init None in
  let playing := snd (run [] (playback_handler "Playing") init) in
  let done := run [] (playback_handler "foo") playing in
  fst done = Returned tt
  /\ log (snd done)
     = log playing ++ [Warned (UnknownPlaybackStatus "foo"); SetStatus UNKNOWN]
  /\ emitted (log (snd done)) = emitted (log playing)
  /\ last_known_playback_status (state (snd done)) = UNKNOWN.
Proof.
  intros init playing.
  exact (proj1 (C9_unknown_status_and_short_circuit "foo" [] playing)
           eq_refl).
Defined.

(** *** The first events *)

(** C10. A new coordinator has last known volume 0.5 and last known status
    Unknown.  So its first volume event is compared with 0.5, and sends
    VOLUME_DOWN for every volume that is at most 0.5; and a first status
    "Unknown" returns at once and leaves everything as it was. *)
Theorem C10_initial_state
    (handler : option SpotifydHandler) (outs : list Outcome) :
  let w0 := MainHandler_init handler in
  last_known_volume (state w0) = float_0_5
  /\ last_known_playback_status (state w0) = UNKNOWN
  /\ (forall volume,
       emitted (log (snd (run outs (volume_handler volume) w0)))
       = [encode (if SFltb float_0_5 volume
                  then VOLUME_UP else VOLUME_DOWN) 1])
  /\ (forall volume,
       SFleb volume float_0_5 = true ->
       emitted (log (snd (run outs (volume_handler volume) w0)))
       = [encode VOLUME_DOWN 1])
  /\ run outs (playback_handler "Unknown") w0 = (Returned tt, w0).
Proof.
  intros w0.
  assert (E : forall volume,
    emitted (log (snd (run outs (volume_handler volume) w0)))
    = [encode (if SFltb float_0_5 volume then VOLUME_UP else VOLUME_DOWN) 1]).
  { intros volume. apply (volume_handler_emitted volume outs w0). }
  repeat split; try reflexivity; [exact E|].
  intros volume Hle. rewrite E, (SFleb_not_gt _ _ Hle). reflexivity.
Qed.

(** A first volume of 0.25. *)
Lemma C10_witness :
  emitted (log (snd (run [] (volume_handler (binary64 1 (-2)))
                       (MainHandler_init None))))
  = [encode VOLUME_DOWN 1].
Proof.
  exact (proj1 (proj2 (proj2 (proj2 (C10_initial_state None []))))
           (binary64 1 (-2)) eq_refl).
Defined.

(** ** The shutdown timers *)

Create HintDb timers.

#[local] Hint Constructors safe : timers.

Lemma safe_bind {A B} (p : Prog A) (f : A -> Prog B) :
  safe p -> (forall a, safe (f a)) -> safe (bind p f).
Proof.
  intros Hp Hf. induction Hp; simpl; auto with timers.
Qed.

Lemma safe_lift {X} (m : Sync X) : preserves m -> safe (lift m).
Proof. intros H. apply safe_Atomic; auto with timers. Qed.

Lemma safe_await (aw : Awaitable) : safe (await aw).
Proof. unfold await. auto with timers. Qed.

(** A synchronous step that leaves the tasks and the timer attribute alone. *)
Lemma preserves_frame {X} (m : Sync X) :
  (forall w, tasks (snd (m w)) = tasks w
             /\ shutdown_timer_task (snd (m w)) = shutdown_timer_task w) ->
  preserves m.
Proof.
  intros H w. destruct (H w) as [Ht Hs]. split; [now rewrite Ht|].
  intros Hw task timeout. rewrite Ht, Hs. apply Hw.
Qed.

Lemma preserves_cancel (task : nat) : preserves (cancel task).
Proof.
  intros w. split.
  - unfold cancel. cbn.
    destruct (nth_error (tasks w) task) as [[to'| |]|];
      rewrite ?length_set_nth; lia.
  - intros Hw t timeout. unfold cancel. cbn.
    destruct (nth_error (tasks w) task) as [[to'| |]|] eqn:E; try apply Hw.
    intros H. apply nth_error_set_nth_pending in H as [_ H]; [|discriminate].
    rewrite length_set_nth. exact (Hw _ _ H).
Qed.

Lemma preserves_cancel_shutdown_timer_task :
  preserves cancel_shutdown_timer_task.
Proof.
  intros w. unfold cancel_shutdown_timer_task, sync_bind,
    read_shutdown_timer_task.
  destruct (shutdown_timer_task w) as [task|]; [apply preserves_cancel|].
  split; auto.
Qed.

(** Under [timer_inv], nothing is pending once the held task is cancelled. *)
Lemma after_cancel_none_pending (w : World) :
  timer_inv w ->
  forall t timeout, nth_error (after_cancel w) t <> Some (Pending timeout).
Proof.
  intros Hw t timeout H. unfold after_cancel in H.
  destruct (shutdown_timer_task w) as [task|] eqn:Ht.
  - destruct (nth_error (tasks w) task) as [[to'| |]|] eqn:E.
    + apply nth_error_set_nth_pending in H as [Hne H]; [|discriminate].
      apply Hw in H as [H _]. congruence.
    + pose proof (Hw _ _ H) as [H' _]. congruence.
    + pose proof (Hw _ _ H) as [H' _]. congruence.
    + pose proof (Hw _ _ H) as [H' _]. congruence.
  - apply Hw in H as [H _]. congruence.
Qed.

(** After arming, the new task is the only pending one. *)
Lemma pending_after_arming (timeout : timedelta) (w : World) :
  timer_inv w ->
  forall t to',
    nth_error (tasks (snd (start_shutdown_timer timeout w))) t
    = Some (Pending to') ->
    t = length (tasks w).
Proof.
  intros Hw t to' H. rewrite start_shutdown_timer_eq in H. cbn in H.
  destruct (Nat.lt_ge_cases t (length (after_cancel w))) as [Hlt|Hge].
  - rewrite nth_error_app1 in H by assumption.
    now apply after_cancel_none_pending in H.
  - assert (t < length (after_cancel w ++ [Pending timeout]))%nat
      by (apply nth_error_Some; congruence).
    rewrite length_app, length_after_cancel in *. simpl in *. lia.
Qed.

Lemma preserves_start_shutdown_timer (timeout : timedelta) :
  preserves (start_shutdown_timer timeout).
Proof.
  intros w. split.
  - rewrite start_shutdown_timer_eq. cbn.
    rewrite length_app, length_after_cancel. lia.
  - intros Hw t to' H.
    pose proof (pending_after_arming timeout w Hw t to' H) as ->.
    rewrite start_shutdown_timer_eq. cbn.
    rewrite length_app, length_after_cancel. simpl. split; [reflexivity|lia].
Qed.

#[local] Hint Resolve preserves_cancel_shutdown_timer_task
  preserves_start_shutdown_timer : timers.

Ltac safe_tac :=
  repeat first
    [ apply safe_Ret
    | apply safe_Atomic
    | apply safe_Await
    | apply safe_await
    | apply safe_bind
    | apply safe_lift
    | match goal with
      | |- safe (if ?c then _ else _) => destruct c
      | |- safe (match ?x with _ => _ end) => destruct x
      | |- preserves _ =>
          first [ solve [auto with timers]
                | apply preserves_frame; intros; split; reflexivity ]
      | |- forall _, _ => intro
      end ].

Lemma safe_write_message_to_lintronic
    (beo_command : BeoCommand) (repeat_count : Z) :
  safe (write_message_to_lintronic beo_command repeat_count).
Proof. unfold write_message_to_lintronic. safe_tac. Qed.

#[local] Hint Resolve safe_write_message_to_lintronic : timers.

Lemma safe_callback (c : Callback) : safe (callback c).
Proof.
  destruct c; simpl;
    unfold volume_handler, playback_handler, power_off_handler,
      Dbus.send_spotify_command, Dbus.send_command;
    safe_tac; auto with timers.
Qed.

Lemma safe_shutdown_timer_wake (timeout : timedelta) :
  safe (resumed (shutdown_timer timeout)).
Proof.
  unfold shutdown_timer. simpl. safe_tac; auto with timers.
Qed.

(** A safe coroutine run to its next suspension. *)
Lemma advance_safe (p : Prog unit) :
  safe p ->
  forall w,
    (length (tasks w) <= length (tasks (snd (advance p w))))%nat
    /\ (timer_inv w -> timer_inv (snd (advance p w)))
    /\ match fst (advance p w) with
       | Waiting _ k => safe k
       | Finished _ => True
       end.
Proof.
  induction 1 as [a|X m k Hm Hk IH|aw k Hk IH]; intros w; simpl.
  - split; [lia | split; auto].
  - destruct (Hm w) as [Hlen Hinv]. destruct (m w) as [x w1].
    destruct (IH x w1) as (Hlen' & Hinv' & Hk'). simpl in *.
    split; [lia | split; [auto | assumption]].
  - split; [lia | split; [|assumption]]. intros Hw task timeout. apply Hw.
Qed.

Lemma park_inv (others : list (Awaitable * Prog unit)) (p : Prog unit) w :
  safe p -> timer_inv w -> Forall (fun e => safe (snd e)) others ->
  system_inv (park others (advance p w)).
Proof.
  intros Hp Hw Ho. destruct (advance_safe p Hp w) as (_ & Hw' & Hk).
  unfold park. destruct (fst (advance p w)); split; simpl; auto.
  apply Forall_app. split; auto.
Qed.

Lemma park_length (others : list (Awaitable * Prog unit)) (p : Prog unit) w :
  safe p ->
  (length (tasks w) <= length (tasks (world (park others (advance p w)))))%nat.
Proof.
  intros Hp. destruct (advance_safe p Hp w) as (Hlen & _ & _).
  unfold park. now destruct (fst (advance p w)).
Qed.

Lemma fire_inv (task : nat) (w : World) :
  timer_inv w -> timer_inv (fire task w).
Proof.
  intros Hw t timeout. unfold fire. cbn. rewrite length_set_nth.
  intros H. apply nth_error_set_nth_pending in H as [_ H]; [|discriminate].
  exact (Hw _ _ H).
Qed.

Lemma step_inv (s s' : System) (l : Label) :
  step s l s' -> system_inv s -> system_inv s'.
Proof.
  intros Hstep [Hw Hws]. destruct Hstep; cbn [world waiting] in *.
  - apply park_inv; auto using safe_callback.
  - apply Forall_app in Hws as [H1 H2]. inversion H2; subst.
    apply park_inv; auto. apply Forall_app; auto.
  - apply Forall_app in Hws as [H1 H2]. inversion H2; subst.
    split; simpl; auto. apply Forall_app; split; assumption.
  - apply park_inv; auto using safe_shutdown_timer_wake, fire_inv.
  - split; simpl; auto.
Qed.

(** No step forgets a task. *)
Lemma step_length (s s' : System) (l : Label) :
  step s l s' -> system_inv s ->
  (length (tasks (world s)) <= length (tasks (world s')))%nat.
Proof.
  intros Hstep [Hw Hws]. destruct Hstep; cbn [world waiting] in *.
  - apply park_length, safe_callback.
  - apply Forall_app in Hws as [H1 H2]. inversion H2; subst.
    now apply park_length.
  - lia.
  - etransitivity; [|apply park_length, safe_shutdown_timer_wake].
    unfold fire. cbn. now rewrite length_set_nth.
  - reflexivity.
Qed.

Lemma reachable_inv (s : System) : reachable s -> system_inv s.
Proof.
  induction 1 as [handler|s l s' _ IH Hstep].
  - split; simpl; [|constructor].
    intros [|task] timeout H; discriminate H.
  - eauto using step_inv.
Qed.

(** Only the task created last can end its sleep. *)
Lemma fire_is_last (s s' : System) (task : nat) :
  system_inv s -> step s (Fire task) s' ->
  shutdown_timer_task (world s) = Some task
  /\ S task = length (tasks (world s)).
Proof.
  intros [Hw _] Hstep. inversion Hstep; subst. cbn [world] in *. eauto.
Qed.

(** A task that is no longer the last one never ends its sleep. *)
Lemma superseded_never_fires (s s' : System) (ls : list Label) :
  steps s ls s' -> system_inv s ->
  forall task, (S task < length (tasks (world s)))%nat -> ~ In (Fire task) ls.
Proof.
  induction 1 as [s|s l s1 ls s2 Hstep _ IH]; intros Hs task Hlt [].
  - subst l. destruct (fire_is_last _ _ _ Hs Hstep) as [_ E]. lia.
  - apply (IH (step_inv _ _ _ Hstep Hs) task); [|assumption].
    pose proof (step_length _ _ _ Hstep Hs). lia.
Qed.

(** C5. In every state the event loop can reach, at most one shutdown timer
    is pending, and it is the one the coordinator holds.  Arming a timer
    there cancels the timer held before and then creates the new one, which
    is afterwards the only pending one.  A timer whose sleep ends is the one
    created last; so a timer after which another one was armed never ends its
    sleep, and its AUDIO_POWER_OFF is never sent, however the loop goes
    on. *)
Theorem C5_at_most_one_pending_timer (s : System) (Hs : reachable s) :
  let w := world s in
  (forall t1 t2, pending w t1 -> pending w t2 -> t1 = t2)
  /\ (forall t, pending w t -> shutdown_timer_task w = Some t)
  /\ (forall timeout,
        let w' := snd (start_shutdown_timer timeout w) in
        let new_task := length (tasks w) in
        log w' = log w ++ cancellation w ++ [CreatedTask new_task timeout]
        /\ shutdown_timer_task w' = Some new_task
        /\ forall t, pending w' t <-> t = new_task)
  /\ (forall t s', step s (Fire t) s' -> S t = length (tasks w))
  /\ (forall t ls s',
        (S t < length (tasks w))%nat -> steps s ls s' -> ~ In (Fire t) ls).
Proof.
  intros w. pose proof (reachable_inv s Hs) as Hinv.
  destruct Hinv as [Hw Hws]. fold w in Hw.
  split; [|split; [|split; [|split]]].
  - intros t1 t2 [to1 H1] [to2 H2].
    apply Hw in H1 as [_ H1]. apply Hw in H2 as [_ H2]. lia.
  - intros t [timeout H]. now apply Hw in H.
  - intros timeout w' new_task. subst w' new_task.
    split; [|split; [|split]].
    + now rewrite start_shutdown_timer_eq.
    + now rewrite start_shutdown_timer_eq.
    + intros [to' H]. eapply pending_after_arming; eauto.
    + intros ->. exists timeout. rewrite start_shutdown_timer_eq. cbn.
      apply nth_error_after_cancel. reflexivity.
  - intros t s' Hstep.
    now destruct (fire_is_last s s' t (conj Hw Hws) Hstep).
  - intros t ls s' Hlt Hsteps.
    exact (superseded_never_fires s s' ls Hsteps (conj Hw Hws) t Hlt).
Qed.

(** "Stopped", then "Paused" and the end of its write: the 5-minute timer is
    cancelled, the 15-minute timer is pending and held. *)
Lemma C5_witness :
  let s0 := mkSystem (MainHandler_init None) [] in
  let s1 :=
    park [] (advance (callback (PlaybackStatusChanged "Stopped")) (world s0)) in
  let s2 :=
    park [] (advance (callback (PlaybackStatusChanged "Paused")) (world s1)) in
  let s3 :=
    park [] (advance (lift (start_shutdown_timer FIFTEEN_MINUTES) ;;
                      lift (set_last_known_playback_status PAUSED))%prog
               (world s2)) in
  reachable s3
  /\ tasks (world s3) = [Cancelled; Pending (minutes 15)]
  /\ shutdown_timer_task (world s3) = Some 1%nat
  /\ (forall ls s', steps s3 ls s' -> ~ In (Fire 0) ls).
Proof.
  intros s0 s1 s2 s3.
  assert (R1 : reachable s1)
    by exact (reachable_step _ _ _ (reachable_init None)
                (step_start (PlaybackStatusChanged "Stopped") _ [])).
  assert (R2 : reachable s2)
    by exact (reachable_step _ _ _ R1
                (step_start (PlaybackStatusChanged "Paused") _ [])).
  assert (R3 : reachable s3)
    by exact (reachable_step _ _ _ R2
                (step_resume Drain
                   (lift (start_shutdown_timer FIFTEEN_MINUTES) ;;
                    lift (set_last_known_playback_status PAUSED))%prog
                   (world s2) [] [])).
  destruct (C5_at_most_one_pending_timer s3 R3) as (_ & Hheld & _ & _ & Hnever).
  split; [exact R3|]. split; [reflexivity|]. split.
  - apply Hheld. exists (minutes 15). reflexivity.
  - intros ls s'. apply Hnever. simpl. lia.
Defined.

(** ** Further properties of the design document *)

(** X1. The receive path accepts no frame: whatever is on the line,
    [handle_incoming_message] does not reach its final [logger.info]; a
    frame that passes the two address checks is reported as carrying an
    invalid checksum. *)
Theorem X1_receive_path_accepts_no_frame (s : bytes) :
  (forall cmd data rest,
     handle_incoming_message s <> Some (GotCmd cmd data, rest))
  /\ match handle_incoming_message s with
     | Some (NotAddressedToUs to_address, _) =>
         to_address <> OUR_ADDRESS
     | Some (NotFromLintronic from_address, _) =>
         from_address <> LINTRONIC_ADDRESS
     | Some (InvalidChecksum checksum expected_checksum, _) =>
         (length checksum <= 2)%nat /\ length expected_checksum = 3%nat
     | Some (GotCmd _ _, _) => False
     | None => True
     end.
Proof.
  split.
  - intros cmd data rest. apply handle_incoming_message_never_accepts.
  - unfold handle_incoming_message, bind_r, ret_r.
    destruct (readexactly 2 s) as [[to_address s1]|]; [|exact I].
    destruct (bytes_eqb to_address OUR_ADDRESS) eqn:Eto; simpl.
    2:{ intros E. apply bytes_eqb_eq in E. congruence. }
    destruct (readexactly 2 s1) as [[from_address s2]|]; [|exact I].
    destruct (bytes_eqb from_address LINTRONIC_ADDRESS) eqn:Efrom; simpl.
    2:{ intros E. apply bytes_eqb_eq in E. congruence. }
    destruct (readexactly 3 s2) as [[cmd s3]|]; [|exact I].
    destruct (readuntil END_OF_TRANSMISSION s3) as [[dc s4]|]; [|exact I].
    rewrite validate_checksum_never_accepts.
    split; [apply slice_last_3_1_length | reflexivity].
Qed.

(** X2. A frame whose destination is not "00" is turned away after its
    first two bytes, and a frame for us whose source is not "01" after its
    first four: nothing is raised and the rest of the line is left to be
    read. *)
Theorem X2_address_rejection (address rest : bytes) :
  length address = 2%nat ->
  (address <> OUR_ADDRESS ->
   handle_incoming_message (address ++ rest)
   = Some (NotAddressedToUs address, rest))
  /\ (address <> LINTRONIC_ADDRESS ->
      handle_incoming_message (OUR_ADDRESS ++ address ++ rest)
      = Some (NotFromLintronic address, rest)).
Proof.
  intros Hlen.
  assert (Hneq : forall x, address <> x -> bytes_eqb address x = false).
  { intros x Hx. destruct (bytes_eqb address x) eqn:E; [|reflexivity].
    apply bytes_eqb_eq in E. contradiction. }
  unfold handle_incoming_message, bind_r, ret_r. split; intros Hne.
  - rewrite <- Hlen, readexactly_app, (Hneq _ Hne). reflexivity.
  - change 2%nat with (length OUR_ADDRESS) at 1.
    rewrite readexactly_app. cbn [bytes_eqb OUR_ADDRESS negb].
    change (bytes_eqb OUR_ADDRESS OUR_ADDRESS) with true. cbn [negb].
    rewrite <- Hlen, readexactly_app, (Hneq _ Hne). reflexivity.
Qed.

(** The frame of VOLUME_UP, which is addressed to the LinTronic. *)
Lemma X2_witness :
  handle_incoming_message (b "0100040255010010701000096000000000000001024065>")
  = Some (NotAddressedToUs (b "01"),
          b "00040255010010701000096000000000000001024065>").
Proof.
  exact (proj1 (X2_address_rejection (b "01")
                  (b "00040255010010701000096000000000000001024065>")
                  eq_refl)
           ltac:(discriminate)).
Defined.

(** The scenario of the design document, with a player session
    present: "Playing" arrives, AUDIO_AUX is sent and no timer is pending;
    "Paused" arrives, nothing is sent and the 15-minute timer is armed; its
    sleep ends with the status still Paused, and AUDIO_POWER_OFF is sent. *)
Example end_to_end_scenario :
  let handler := mkSpotifydHandler "org.mpris.MediaPlayer2.spotifyd" in
  let s0 := mkSystem (MainHandler_init (Some handler)) [] in
  exists s1 s2 s3 s4,
    step s0 (Start (PlaybackStatusChanged "Playing")) s1
    /\ step s1 (Resume Drain) s2
    /\ emitted (log (world s2)) = [encode AUDIO_AUX 1]
    /\ tasks (world s2) = []
    /\ step s2 (Start (PlaybackStatusChanged "Paused")) s3
    /\ emitted (log (world s3)) = [encode AUDIO_AUX 1]
    /\ tasks (world s3) = [Pending (minutes 15)]
    /\ shutdown_timer_task (world s3) = Some 0%nat
    /\ step s3 (Fire 0) s4
    /\ last_known_playback_status (state (world s4)) = PAUSED
    /\ emitted (log (world s4))
       = [encode AUDIO_AUX 1; encode AUDIO_POWER_OFF 1].
Proof.
  intros handler s0.
  eexists. eexists. eexists. eexists.
  split; [apply step_start|].
  split; [exact (step_resume Drain _ _ [] [])|].
  split; [reflexivity|]. split; [reflexivity|].
  split; [apply step_start|].
  split; [reflexivity|]. split; [reflexivity|]. split; [reflexivity|].
  split.
  { match goal with
    | |- step ?s _ _ => let s' := eval cbn -[encode] in s in change s with s'
    end.
    apply (step_fire 0 (minutes 15)). reflexivity. }
  split; reflexivity.
Qed.

(** * More of the code *)

(** ** The other transitions of the coordinator *)

(** X3. For every state whose last known status is not Playing,
    [playback_handler("Playing")] sends AUDIO_AUX; when that write completes
    it cancels the timer held, sets the status to Playing and leaves no
    timer pending; when the write raises, the exception leaves the handler
    with the timer not cancelled and the status unchanged. *)
Theorem X3_playing_transition (outs : list Outcome) (w : World) :
  last_known_playback_status (state w) <> PLAYING ->
  let done := run outs (playback_handler "Playing") w in
  match outs with
  | Raises exc :: _ =>
      fst done = Raised exc
      /\ log (snd done)
         = log w ++ [WriterWrite (encode AUDIO_AUX 1); Awaiting Drain]
      /\ state (snd done) = state w
      /\ tasks (snd done) = tasks w
  | _ =>
      fst done = Returned tt
      /\ log (snd done)
         = log w ++ [WriterWrite (encode AUDIO_AUX 1); Awaiting Drain]
           ++ cancellation w ++ [SetStatus PLAYING]
      /\ last_known_playback_status (state (snd done)) = PLAYING
      /\ tasks (snd done) = after_cancel w
      /\ (timer_inv w -> forall t, ~ pending (snd done) t)
  end.
Proof.
  intros Hlast done; subst done. unfold playback_handler. ev.
  destruct (last_known_playback_status (state w)) eqn:E; [congruence|..];
  ev; destruct outs as [|[|exc] outs]; ev; timers; ev; norm_log;
    repeat split; try reflexivity;
    intros Hw t [timeout Hp]; cbn [tasks] in Hp;
    exact (after_cancel_none_pending _ Hw t timeout Hp).
Qed.

(** "Playing" when a 5-minute timer is pending. *)
Lemma X3_witness :
  let stopped :=
    snd (run [] (playback_handler "Stopped") (MainHandler_init None)) in
  let done := run [] (playback_handler "Playing") stopped in
  tasks (snd done) = [Cancelled]
  /\ last_known_playback_status (state (snd done)) = PLAYING.
Proof.
  intros stopped.
  pose proof (X3_playing_transition [] stopped ltac:(discriminate)) as H.
  cbv zeta in H. destruct H as (_ & _ & Hs & Ht & _).
  split; [exact Ht | exact Hs].
Defined.

(** The tasks after [start_shutdown_timer], under [timer_inv]: the new task
    is pending with its timeout and no other is. *)
Lemma pending_after_start_shutdown_timer
    (timeout : timedelta) (w : World) (t : nat) (to' : timedelta) :
  timer_inv w ->
  nth_error (after_cancel w ++ [Pending timeout]) t = Some (Pending to')
  <-> t = length (tasks w) /\ to' = timeout.
Proof.
  intros Hw. split.
  - intros H.
    destruct (Nat.lt_ge_cases t (length (after_cancel w))) as [Hlt|Hge].
    + rewrite nth_error_app1 in H by assumption.
      now apply after_cancel_none_pending in H.
    + assert (Hlen : (t < length (after_cancel w ++ [Pending timeout]))%nat)
        by (apply nth_error_Some; congruence).
      rewrite length_app, length_after_cancel in *. simpl in Hlen.
      assert (t = length (tasks w)) by lia. subst t.
      rewrite nth_error_after_cancel in H by reflexivity.
      split; congruence.
  - intros [-> ->]. now apply nth_error_after_cancel.
Qed.

(** X4. Re-arming replaces, it does not stack: in a state where at most the
    held timer is pending (every state the event loop reaches), after
    [playback_handler("Stopped")] or [playback_handler("Paused")] has run
    to its end on a status that differs from the last known one, exactly one
    timer is pending: the new one, of 5 minutes for Stopped and 15 minutes
    for Paused; and it is the one held. *)
Theorem X4_rearming_leaves_one_timer
    (status : string) (timeout : timedelta) (w : World) :
  timer_inv w ->
  (status = "Stopped"%string /\ timeout = minutes 5
   \/ status = "Paused"%string /\ timeout = minutes 15) ->
  status <> status_value (last_known_playback_status (state w)) ->
  let done := run [] (playback_handler status) w in
  fst done = Returned tt
  /\ shutdown_timer_task (snd done) = Some (length (tasks w))
  /\ PlaybackStatus_of status
     = Some (last_known_playback_status (state (snd done)))
  /\ forall t to',
       nth_error (tasks (snd done)) t = Some (Pending to')
       <-> t = length (tasks w) /\ to' = timeout.
Proof.
  intros Hw Hcase Hne done; subst done. unfold playback_handler. ev.
  destruct Hcase as [[-> ->]|[-> ->]];
    destruct (last_known_playback_status (state w)) eqn:E;
    try (exfalso; apply Hne; reflexivity);
    repeat first [rewrite E | progress ev]; timers; ev; (split; [reflexivity|]); (split; [reflexivity|]);
    (split; [reflexivity|]); intros t to';
    match goal with
    | |- nth_error (after_cancel ?W ++ _) _ = _ <-> _ =>
        apply (pending_after_start_shutdown_timer _ W); exact Hw
    end.
Qed.

(** "Paused" after "Stopped": the 5-minute timer is replaced. *)
Lemma X4_witness :
  let stopped :=
    snd (run [] (playback_handler "Stopped") (MainHandler_init None)) in
  tasks (snd (run [] (playback_handler "Paused") stopped))
  = [Cancelled; Pending (minutes 15)]
  /\ nth_error (tasks (snd (run [] (playback_handler "Paused") stopped))) 1
     = Some (Pending (minutes 15)).
Proof.
  intros stopped.
  assert (Hinv : timer_inv stopped).
  { intros [|[|t]] timeout H; try discriminate H. split; reflexivity. }
  pose proof (X4_rearming_leaves_one_timer "Paused" (minutes 15) stopped
                Hinv (or_intror (conj eq_refl eq_refl))
                ltac:(discriminate)) as H.
  cbv zeta in H. destruct H as (_ & _ & _ & H).
  split; [reflexivity | apply H; split; reflexivity].
Defined.

(** X5. A status string that is none of "Playing", "Paused" and "Stopped"
    (and is not the value of the last known status) sets the status to
    Unknown and touches no timer: a pending timer stays pending, but when its
    sleep ends it only logs a warning and AUDIO_POWER_OFF is not sent. *)
Theorem X5_unrecognised_status_defuses_timer
    (status : string) (outs outs' : list Outcome) (timeout : timedelta)
    (w : World) :
  PlaybackStatus_of status = None \/ status = "Unknown"%string ->
  status <> status_value (last_known_playback_status (state w)) ->
  let w1 := snd (run outs (playback_handler status) w) in
  let woken := run outs' (resumed (shutdown_timer timeout)) w1 in
  last_known_playback_status (state w1) = UNKNOWN
  /\ tasks w1 = tasks w
  /\ shutdown_timer_task w1 = shutdown_timer_task w
  /\ emitted (log w1) = emitted (log w)
  /\ fst woken = Returned tt
  /\ log (snd woken)
     = log w1 ++ [Warned (TimerWokeNotPausedOrStopped UNKNOWN)]
  /\ emitted (log (snd woken)) = emitted (log w).
Proof.
  intros Hcase Hne w1 woken; subst woken w1.
  unfold playback_handler, shutdown_timer. ev.
  apply String.eqb_neq in Hne. rewrite Hne.
  destruct Hcase as [Hnone| ->].
  - rewrite Hnone. ev. rewrite !emitted_app. ev. rewrite !app_nil_r.
    repeat split; reflexivity.
  - ev. rewrite !emitted_app. ev. rewrite !app_nil_r.
    repeat split; reflexivity.
Qed.

(** "Buffering" while a 5-minute timer is pending. *)
Lemma X5_witness :
  let stopped :=
    snd (run [] (playback_handler "Stopped") (MainHandler_init None)) in
  let w1 := snd (run [] (playback_handler "Buffering") stopped) in
  tasks w1 = [Pending (minutes 5)]
  /\ emitted (log (snd (run [] (resumed (shutdown_timer (minutes 5))) w1)))
     = [].
Proof.
  intros stopped.
  pose proof (X5_unrecognised_status_defuses_timer "Buffering" [] []
                (minutes 5) stopped (or_introl eq_refl)
                ltac:(discriminate)) as H.
  cbv zeta in H. destruct H as (_ & Ht & _ & _ & _ & _ & He).
  split; [exact Ht | exact He].
Defined.

Lemma steps_next (s s1 s1' s2 : System) (l : Label) (ls : list Label) :
  step s l s1 -> s1 = s1' -> steps s1' ls s2 -> steps s (l :: ls) s2.
Proof. intros H <- Hs. exact (steps_cons _ _ _ _ _ H Hs). Qed.

Ltac loop_norm :=
  unfold callback, power_off_handler, shutdown_timer, park;
  ev; timers; ev; rewrite ?app_nil_r; reflexivity.

(** X6. The handler of the power-off request cancels the shutdown timer
    only at its end, so a timer whose sleep ends while the handler is in
    its sleep of one second sends AUDIO_POWER_OFF as well.  From every
    state where a timer is pending and the last known status is Paused or
    Stopped, the loop can start [power_off_handler], end the timer's sleep
    during the handler's [asyncio.sleep(1)], and let the handler go on:
    AUDIO_POWER_OFF is written twice.  In this run every wait for a drain
    is over in the very next step, no other coroutine running in between,
    as for a drain that does not wait. *)
Theorem X6_timer_fires_during_power_off
    (w : World) (ws : list (Awaitable * Prog unit))
    (task : nat) (timeout : timedelta) :
  nth_error (tasks w) task = Some (Pending timeout) ->
  last_known_playback_status (state w) = PAUSED
  \/ last_known_playback_status (state w) = STOPPED ->
  let pause :=
    match spotify_handler w with
    | Some handler => [Resume (CallPause (bus_name handler))]
    | None => []
    end in
  let run :=
    [Start PowerOffRequested; Resume Drain; Fire task; Resume Drain;
     Resume (Sleep 1)] ++ pause ++ [Resume Drain] in
  exists s',
    steps (mkSystem w ws) run s'
    /\ emitted (log (world s'))
       = emitted (log w)
         ++ [encode VOLUME_DOWN 10; encode AUDIO_POWER_OFF 1;
             encode AUDIO_POWER_OFF 1]
    /\ waiting s' = ws
    /\ last_known_playback_status (state (world s')) = PAUSED.
Proof.
  intros Hp Hlast pause run. subst pause run.
  destruct w as [[volume status] held handler ts lg]. cbn in Hp, Hlast.
  cbn [spotify_handler].
  destruct Hlast; subst status; destruct handler as [handler|]; eexists.
  all: split;
    [ eapply steps_next; [apply step_start | loop_norm |];
      eapply steps_next; [apply step_resume | loop_norm |];
      eapply steps_next;
        [apply (step_fire task timeout); exact Hp | loop_norm |];
      eapply steps_next; [apply step_resume | loop_norm |];
      repeat (eapply steps_next;
                [apply (step_resume _ _ _ ws []) | loop_norm |]);
      apply steps_nil
    | split; [|split; reflexivity] ].
  all: ev; rewrite !emitted_app; ev; unfold cancellation; ev;
    destruct held; ev; rewrite ?app_nil_r, <- ?app_assoc; reflexivity.
Qed.

(** The power-off request 15 minutes after "Paused", at the start. *)
Lemma X6_witness :
  let paused :=
    snd (run [] (playback_handler "Paused") (MainHandler_init None)) in
  exists s',
    steps (mkSystem paused [])
      [Start PowerOffRequested; Resume Drain; Fire 0; Resume Drain;
       Resume (Sleep 1); Resume Drain] s'
    /\ emitted (log (world s'))
       = [encode VOLUME_DOWN 10; encode AUDIO_POWER_OFF 1;
          encode AUDIO_POWER_OFF 1]
    /\ waiting s' = []
    /\ last_known_playback_status (state (world s')) = PAUSED.
Proof.
  intros paused.
  exact (X6_timer_fires_during_power_off paused [] 0 (minutes 15)
           eq_refl (or_introl eq_refl)).
Defined.

(** X7. When the pause call to spotifyd raises, [power_off_handler] has
    lowered the volume and waited, but the exception leaves it there:
    AUDIO_POWER_OFF is not sent, the last known status is not set and the
    timer is not cancelled. *)
Theorem X7_failed_pause_prevents_power_off
    (handler : SpotifydHandler) (exc : string) (outs : list Outcome)
    (w : World) :
  spotify_handler w = Some handler ->
  let done :=
    run (Completes :: Completes :: Raises exc :: outs) power_off_handler w in
  fst done = Raised exc
  /\ log (snd done)
     = log w ++ [WriterWrite (encode VOLUME_DOWN 10); Awaiting Drain;
                 Awaiting (Sleep 1); Awaiting (CallPause (bus_name handler))]
  /\ emitted (log (snd done)) = emitted (log w) ++ [encode VOLUME_DOWN 10]
  /\ state (snd done) = state w
  /\ tasks (snd done) = tasks w.
Proof.
  intros Hh done; subst done.
  unfold power_off_handler, Dbus.send_spotify_command, Dbus.send_command.
  ev. rewrite Hh. ev. norm_log. rewrite !emitted_app. ev.
  rewrite ?app_nil_r. repeat split; reflexivity.
Qed.

(** With a session present from the start. *)
Lemma X7_witness :
  let w := MainHandler_init (Some (mkSpotifydHandler "spotifyd")) in
  emitted (log (snd (run [Completes; Completes; Raises "DBusError"]
                       power_off_handler w)))
  = [encode VOLUME_DOWN 10].
Proof.
  intros w.
  exact (proj1 (proj2 (proj2
           (X7_failed_pause_prevents_power_off
              (mkSpotifydHandler "spotifyd") "DBusError" [] w eq_refl)))).
Defined.

(** ** Framing on the serial line *)

Lemma no_byte_app (x : byte) (l r : bytes) :
  no_byte x (l ++ r) <-> no_byte x l /\ no_byte x r.
Proof. apply Forall_app. Qed.

Lemma digit_no_marker (x : byte) (d : Z) :
  marker x -> Byte.eqb x (digit d) = false.
Proof.
  intros [-> | ->]; unfold digit;
    repeat match goal with
           | |- context [match ?y with _ => _ end] => destruct y
           end; reflexivity.
Qed.

Lemma decimal_digits_no_marker (x : byte) (fuel : nat) :
  marker x ->
  forall n acc, no_byte x acc -> no_byte x (decimal_digits fuel n acc).
Proof.
  intros Hx. induction fuel as [|fuel IH]; intros n acc Hacc; simpl;
    [assumption|].
  assert (no_byte x (digit (n mod 10) :: acc))
    by (constructor; [now apply digit_no_marker | assumption]).
  destruct (n / 10 =? 0); auto.
Qed.

Lemma format_03_no_marker (x : byte) (n : Z) :
  marker x -> no_byte x (format_03 n).
Proof.
  intros Hx. unfold format_03, decimal, zero_pad.
  destruct (n <? 0).
  - constructor; [destruct Hx as [-> | ->]; reflexivity|].
    apply no_byte_app. split.
    + induction (2 - _)%nat; simpl; constructor; auto.
      destruct Hx as [-> | ->]; reflexivity.
    + apply decimal_digits_no_marker; [assumption|constructor].
  - apply no_byte_app. split.
    + induction (3 - _)%nat; simpl; constructor; auto.
      destruct Hx as [-> | ->]; reflexivity.
    + apply decimal_digits_no_marker; [assumption|constructor].
Qed.

Lemma value_no_marker (x : byte) (c : BeoCommand) :
  marker x -> no_byte x (value c).
Proof.
  intros [-> | ->]; destruct c; repeat constructor.
Qed.

Lemma encode_frame (c : BeoCommand) (n : Z) :
  encode c n = frame (encoded_body c n).
Proof.
  unfold encode, frame, encoded_body. now rewrite <- !app_assoc.
Qed.

Lemma encoded_body_no_marker (x : byte) (c : BeoCommand) (n : Z) :
  marker x -> no_byte x (encoded_body c n).
Proof.
  intros Hx. unfold encoded_body.
  repeat (apply no_byte_app; split);
    auto using format_03_no_marker, value_no_marker;
    destruct Hx as [-> | ->]; repeat constructor.
Qed.

(** Reading up to a one-byte separator. *)
Lemma readuntil_skip (x : byte) (junk s : bytes) :
  no_byte x junk ->
  readuntil [x] (junk ++ s)
  = match readuntil [x] s with
    | Some (data, rest) => Some (junk ++ data, rest)
    | None => None
    end.
Proof.
  induction 1 as [|c junk Hc _ IH]; simpl.
  - now destruct (readuntil [x] s) as [[data rest]|].
  - simpl in IH. rewrite Hc. simpl. rewrite IH.
    now destruct (readuntil [x] s) as [[data rest]|].
Qed.

Lemma readuntil_here (x : byte) (s : bytes) :
  readuntil [x] (x :: s) = Some ([x], s).
Proof.
  simpl. now rewrite (Byte.byte_dec_lb eq_refl).
Qed.

Lemma readuntil_found (x : byte) (data rest : bytes) :
  no_byte x data ->
  readuntil [x] (data ++ x :: rest) = Some (data ++ [x], rest).
Proof.
  intros H. now rewrite readuntil_skip, readuntil_here.
Qed.

Lemma readuntil_none (x : byte) (s : bytes) :
  no_byte x s -> readuntil [x] s = None.
Proof.
  intros H. rewrite <- (app_nil_r s), readuntil_skip by assumption.
  reflexivity.
Qed.

(** Reading up to a one-byte separator on the stream with its limit. *)
Lemma limited_readuntil_found (x : byte) (data rest : bytes) :
  no_byte x data -> Z.of_nat (length data) <= Limited.LIMIT ->
  Limited.readuntil [x] (data ++ x :: rest) = Some (data ++ [x], rest).
Proof.
  intros H Hlen. unfold Limited.readuntil.
  rewrite readuntil_found by assumption.
  rewrite length_app. cbn [length].
  replace (length data + 1 - 1)%nat with (length data) by lia.
  destruct (Z.gtb_spec (Z.of_nat (length data)) Limited.LIMIT);
    [lia | reflexivity].
Qed.

Lemma limited_readuntil_overrun (x : byte) (data rest : bytes) :
  no_byte x data -> Limited.LIMIT < Z.of_nat (length data) ->
  Limited.readuntil [x] (data ++ x :: rest) = None.
Proof.
  intros H Hlen. unfold Limited.readuntil.
  rewrite readuntil_found by assumption.
  rewrite length_app. cbn [length].
  replace (length data + 1 - 1)%nat with (length data) by lia.
  destruct (Z.gtb_spec (Z.of_nat (length data)) Limited.LIMIT);
    [reflexivity | lia].
Qed.

Lemma limited_readuntil_none (x : byte) (s : bytes) :
  no_byte x s -> Limited.readuntil [x] s = None.
Proof.
  intros H. unfold Limited.readuntil. now rewrite readuntil_none.
Qed.

Lemma encoded_body_length_in_range (c : BeoCommand) (n : Z) :
  0 <= n <= 999 -> length (encoded_body c n) = 46%nat.
Proof.
  intros H. unfold encoded_body.
  rewrite format_03_mod_256, format_03_digits3 by assumption.
  assert (length (value c) = 33%nat) as Hv by (destruct c; reflexivity).
  rewrite !length_app, Hv. reflexivity.
Qed.

(** X8. A frame is delimited without ambiguity.  For every command and
    every repeat count from 0 to 999 the start marker is the first byte of
    the frame of [encode], the end marker its last, and neither occurs in
    the 46 bytes between them.  So whatever follows the frame, and after
    any noise without a start marker that is within the limit of the
    stream, [readuntil] of the start marker and then of the end marker
    yield exactly the frame; noise longer than the limit makes the first
    [readuntil] raise instead. *)
Theorem X8_frame_is_delimited
    (beo_command : BeoCommand) (repeat_count : Z) (junk rest : bytes) :
  no_byte "<" junk -> 0 <= repeat_count <= 999 ->
  let body := encoded_body beo_command repeat_count in
  let line := junk ++ encode beo_command repeat_count ++ rest in
  encode beo_command repeat_count = b "<" ++ body ++ b ">"
  /\ length body = 46%nat
  /\ no_byte "<" body /\ no_byte ">" body
  /\ (Z.of_nat (length junk) <= Limited.LIMIT ->
      Limited.readuntil START_OF_TRANSMISSION line
      = Some (junk ++ START_OF_TRANSMISSION,
              body ++ END_OF_TRANSMISSION ++ rest))
  /\ (Limited.LIMIT < Z.of_nat (length junk) ->
      Limited.readuntil START_OF_TRANSMISSION line = None)
  /\ Limited.readuntil END_OF_TRANSMISSION
       (body ++ END_OF_TRANSMISSION ++ rest)
     = Some (body ++ END_OF_TRANSMISSION, rest).
Proof.
  intros Hjunk Hcount body line.
  assert (Hs : no_byte "<" body)
    by (apply encoded_body_no_marker; now left).
  assert (He : no_byte ">" body)
    by (apply encoded_body_no_marker; now right).
  assert (Hlen : length body = 46%nat)
    by now apply encoded_body_length_in_range.
  assert (Hline : line = junk ++ "<"%byte :: body ++ ">"%byte :: rest).
  { subst line. rewrite encode_frame. unfold frame. fold body.
    change START_OF_TRANSMISSION with ["<"%byte].
    change END_OF_TRANSMISSION with [">"%byte].
    now rewrite <- !app_assoc. }
  split; [apply encode_frame|]. split; [exact Hlen|].
  split; [exact Hs|]. split; [exact He|].
  change START_OF_TRANSMISSION with ["<"%byte].
  change END_OF_TRANSMISSION with [">"%byte].
  split; [|split].
  - intros Hshort. rewrite Hline.
    now apply limited_readuntil_found.
  - intros Hlong. rewrite Hline.
    now apply limited_readuntil_overrun.
  - apply (limited_readuntil_found ">" body rest He).
    rewrite Hlen. unfold Limited.LIMIT. lia.
Qed.

(** Line noise before the frame of VOLUME_UP. *)
Lemma X8_witness :
  Limited.readuntil START_OF_TRANSMISSION
    (b "x>y" ++ encode VOLUME_UP 1 ++ b "z")
  = Some (b "x>y<",
          b "0100040255010010701000096000000000000001024065>z").
Proof.
  refine (proj1 (proj2 (proj2 (proj2 (proj2
            (X8_frame_is_delimited VOLUME_UP 1 (b "x>y") (b "z") _ _)))))
            _).
  - repeat constructor.
  - lia.
  - unfold Limited.LIMIT. simpl. lia.
Defined.

(** ** The receive loop *)

Lemma listen_skip (fuel : nat) (junk s : bytes) :
  no_byte "<" junk ->
  listen_for_incoming_messages fuel (junk ++ s)
  = listen_for_incoming_messages fuel s.
Proof.
  intros H. destruct fuel as [|fuel]; [reflexivity|]. simpl.
  change START_OF_TRANSMISSION with ["<"%byte].
  rewrite (readuntil_skip "<" junk s H).
  now destruct (readuntil ["<"%byte] s) as [[data rest]|].
Qed.

Lemma no_byte_firstn (x : byte) (n : nat) (l : bytes) :
  no_byte x l -> no_byte x (firstn n l).
Proof.
  intros H. rewrite <- (firstn_skipn n l) in H.
  now apply no_byte_app in H.
Qed.

Lemma no_byte_skipn (x : byte) (n : nat) (l : bytes) :
  no_byte x l -> no_byte x (skipn n l).
Proof.
  intros H. rewrite <- (firstn_skipn n l) in H.
  now apply no_byte_app in H.
Qed.

Lemma readexactly_firstn (n : nat) (l rest : bytes) :
  (n <= length l)%nat ->
  readexactly n (l ++ rest) = Some (firstn n l, skipn n l ++ rest).
Proof.
  intros H. rewrite <- (firstn_skipn n l) at 1. rewrite <- app_assoc.
  rewrite <- (firstn_length_le l H) at 1. apply readexactly_app.
Qed.

(** A frame with its addresses and command code is handled on its own:
    the verdict is that of its body, and what is left unread is the end of
    the frame, without a start marker, and what follows the frame. *)
Lemma handle_frame (body rest : bytes) :
  (7 <= length body)%nat -> no_byte "<" body -> no_byte ">" body ->
  exists tail,
    handle_incoming_message (body ++ END_OF_TRANSMISSION ++ rest)
    = Some (verdict body, tail ++ rest)
    /\ no_byte "<" tail.
Proof.
  intros Hlen Hs He.
  assert (Hend : no_byte "<" END_OF_TRANSMISSION) by (repeat constructor).
  unfold handle_incoming_message, verdict, bind_r, ret_r.
  rewrite (readexactly_firstn 2 body) by lia.
  destruct (negb (bytes_eqb (firstn 2 body) OUR_ADDRESS)).
  { exists (skipn 2 body ++ END_OF_TRANSMISSION). split.
    - now rewrite <- app_assoc.
    - apply no_byte_app. auto using no_byte_skipn. }
  rewrite (readexactly_firstn 2 (skipn 2 body))
    by (rewrite length_skipn; lia).
  rewrite skipn_skipn. cbn [Nat.add].
  destruct (negb (bytes_eqb (firstn 2 (skipn 2 body)) LINTRONIC_ADDRESS)).
  { exists (skipn 4 body ++ END_OF_TRANSMISSION). split.
    - now rewrite <- app_assoc.
    - apply no_byte_app. auto using no_byte_skipn. }
  rewrite (readexactly_firstn 3 (skipn 4 body))
    by (rewrite length_skipn; lia).
  rewrite skipn_skipn. cbn [Nat.add].
  change (END_OF_TRANSMISSION ++ rest) with (">"%byte :: rest).
  change END_OF_TRANSMISSION with [">"%byte].
  rewrite (readuntil_found ">" (skipn 7 body) rest)
    by now apply no_byte_skipn.
  exists []. split; [reflexivity | constructor].
Qed.

Lemma stream_cons (junk body : bytes) (items : list (bytes * bytes))
    (trailing : bytes) :
  stream ((junk, body) :: items) trailing
  = junk ++ frame body ++ stream items trailing.
Proof.
  unfold stream. cbn [map concat fst snd]. now rewrite <- !app_assoc.
Qed.

Lemma listen_stream (items : list (bytes * bytes)) (trailing : bytes) :
  Forall (fun item => no_byte "<" (fst item) /\ well_formed (snd item))
         items ->
  no_byte "<" trailing ->
  forall fuel, (length items <= fuel)%nat ->
  listen_for_incoming_messages fuel (stream items trailing)
  = map verdict (map snd items).
Proof.
  intros H Htrailing.
  induction H as [|[junk body] items (Hjunk & Hlen & Hs & He) _ IH];
    intros fuel Hfuel.
  - destruct fuel as [|fuel]; [reflexivity|].
    unfold stream. cbn [map concat app listen_for_incoming_messages].
    change START_OF_TRANSMISSION with ["<"%byte].
    now rewrite readuntil_none.
  - destruct fuel as [|fuel]; [simpl in Hfuel; lia|].
    cbn [fst snd] in *.
    rewrite stream_cons, listen_skip by assumption.
    unfold frame at 1.
    cbn [listen_for_incoming_messages].
    change START_OF_TRANSMISSION with ["<"%byte].
    rewrite <- !app_assoc. cbn [app].
    rewrite readuntil_here.
    destruct (handle_frame body (stream items trailing) Hlen Hs He)
      as (tail & -> & Htail).
    rewrite (listen_skip fuel tail _ Htail).
    rewrite IH by (simpl in Hfuel; lia). reflexivity.
Qed.

(** A frame with its addresses and command code on the stream with its
    limit: as [handle_frame], and what is left unread of the frame is no
    longer than its body. *)
Lemma limited_handle_frame (body rest : bytes) :
  well_formed body -> short body ->
  exists tail,
    Limited.handle_incoming_message (body ++ END_OF_TRANSMISSION ++ rest)
    = Some (verdict body, tail ++ rest)
    /\ no_byte "<" tail /\ (length tail <= length body)%nat.
Proof.
  intros (Hlen & Hs & He) Hshort. unfold short, Limited.LIMIT in Hshort.
  assert (Hend : no_byte "<" END_OF_TRANSMISSION) by (repeat constructor).
  unfold Limited.handle_incoming_message, verdict, bind_r, ret_r.
  rewrite (readexactly_firstn 2 body) by lia.
  destruct (negb (bytes_eqb (firstn 2 body) OUR_ADDRESS)).
  { exists (skipn 2 body ++ END_OF_TRANSMISSION). split; [|split].
    - now rewrite <- app_assoc.
    - apply no_byte_app. auto using no_byte_skipn.
    - rewrite length_app, length_skipn. simpl. lia. }
  rewrite (readexactly_firstn 2 (skipn 2 body))
    by (rewrite length_skipn; lia).
  rewrite skipn_skipn. cbn [Nat.add].
  destruct (negb (bytes_eqb (firstn 2 (skipn 2 body)) LINTRONIC_ADDRESS)).
  { exists (skipn 4 body ++ END_OF_TRANSMISSION). split; [|split].
    - now rewrite <- app_assoc.
    - apply no_byte_app. auto using no_byte_skipn.
    - rewrite length_app, length_skipn. simpl. lia. }
  rewrite (readexactly_firstn 3 (skipn 4 body))
    by (rewrite length_skipn; lia).
  rewrite skipn_skipn. cbn [Nat.add].
  change (END_OF_TRANSMISSION ++ rest) with (">"%byte :: rest).
  change END_OF_TRANSMISSION with [">"%byte].
  rewrite (limited_readuntil_found ">" (skipn 7 body) rest).
  - exists []. split; [reflexivity | split; [constructor | simpl; lia]].
  - now apply no_byte_skipn.
  - rewrite length_skipn. unfold Limited.LIMIT. lia.
Qed.

Lemma limited_listen_stream (items : list (bytes * bytes)) (trailing : bytes) :
  Forall readable items -> no_byte "<" trailing ->
  forall fuel unread,
    (length items <= fuel)%nat -> no_byte "<" unread -> short unread ->
    Limited.listen_for_incoming_messages fuel
      (unread ++ stream items trailing)
    = map verdict (map snd items).
Proof.
  intros H Htrailing.
  induction H as [|[junk body] items (Hjunk & Hj & Hbody & Hb) _ IH];
    intros fuel unread Hfuel Hunread Hu.
  - destruct fuel as [|fuel]; [reflexivity|].
    unfold stream. cbn [map concat app Limited.listen_for_incoming_messages].
    change START_OF_TRANSMISSION with ["<"%byte].
    rewrite limited_readuntil_none; [reflexivity|].
    apply no_byte_app. now split.
  - destruct fuel as [|fuel]; [simpl in Hfuel; lia|].
    cbn [fst snd] in *.
    rewrite stream_cons. unfold frame at 1.
    cbn [Limited.listen_for_incoming_messages].
    change START_OF_TRANSMISSION with ["<"%byte].
    rewrite <- !app_assoc. cbn [app].
    rewrite app_assoc.
    rewrite limited_readuntil_found.
    + destruct (limited_handle_frame body (stream items trailing) Hbody Hb)
        as (tail & -> & Htail & Hlen).
      rewrite IH; [reflexivity | simpl in Hfuel; lia | exact Htail |].
      unfold short in *. lia.
    + apply no_byte_app. now split.
    + rewrite length_app. unfold short in *. lia.
Qed.

(** X9. The receive loop stays in step with the frames.  On a stream of
    frames, each possibly after line noise without a start marker, whose
    bodies hold no marker and at least the two addresses and the command
    code (7 bytes), noise and bodies being shorter than half the limit of
    the stream, it hands out one verdict per frame, in order, until the
    stream ends; the verdict of a frame depends on the body of that frame
    alone, not on the noise nor on the frames around it.  Noise longer than
    the limit ends the loop without a verdict. *)
Theorem X9_one_verdict_per_frame
    (items : list (bytes * bytes)) (trailing : bytes) (fuel : nat) :
  Forall readable items ->
  no_byte "<" trailing ->
  (length items <= fuel)%nat ->
  Limited.listen_for_incoming_messages fuel (stream items trailing)
  = map verdict (map snd items)
  /\ forall noise rest,
       no_byte "<" noise -> Limited.LIMIT < Z.of_nat (length noise) ->
       Limited.listen_for_incoming_messages fuel
         (noise ++ START_OF_TRANSMISSION ++ rest)
       = [].
Proof.
  intros H Htrailing Hfuel. split.
  - apply (limited_listen_stream items trailing H Htrailing fuel []);
      [exact Hfuel | constructor | unfold short, Limited.LIMIT; simpl; lia].
  - intros noise rest Hnoise Hlong.
    destruct fuel as [|fuel']; [reflexivity|].
    cbn [Limited.listen_for_incoming_messages].
    change START_OF_TRANSMISSION with ["<"%byte]. cbn [app].
    now rewrite limited_readuntil_overrun.
Qed.

(** A foreign frame, noise, a frame for us, noise. *)
Lemma X9_witness :
  Limited.listen_for_incoming_messages 5
    (b "<0200040111>"
     ++ b "x>y<0001040255010010701000096000000000000001024065>"
     ++ b "zz")
  = [NotAddressedToUs (b "02"); InvalidChecksum (b "65") (b "065")].
Proof.
  refine (proj1 (X9_one_verdict_per_frame
            [(b "", b "0200040111");
             (b "x>y", b "0001040255010010701000096000000000000001024065")]
            (b "zz") 5 _ _ _)).
  - repeat constructor; unfold short, Limited.LIMIT; simpl; lia.
  - repeat constructor.
  - repeat constructor.
Defined.

(** The bound on the length matters: after a frame cut short, the loop
    reads the end marker and the start of the next frame as an address, and
    the next frame is lost. *)
Example runt_frame_swallows_the_next :
  Limited.listen_for_incoming_messages 5 (b "<00>" ++ encode VOLUME_UP 1)
  = [NotFromLintronic (b "><")].
Proof. reflexivity. Qed.

Lemma encoded_body_well_formed (c : BeoCommand) (n : Z) :
  well_formed (encoded_body c n).
Proof.
  split; [|split].
  - unfold encoded_body. rewrite !length_app.
    assert (length (value c) = 33%nat) by (destruct c; reflexivity).
    simpl. lia.
  - apply encoded_body_no_marker. now left.
  - apply encoded_body_no_marker. now right.
Qed.

(** X10. What the coordinator sends is never taken for a message to it: for
    every sequence of commands and repeat counts, the receive loop fed with
    the frames [write_message_to_lintronic] makes of them turns each frame
    away as not addressed to us ("01"), one verdict per frame, and loses
    step with none of them. *)
Theorem X10_own_frames_are_turned_away
    (commands : list (BeoCommand * Z)) (fuel : nat) :
  (length commands <= fuel)%nat ->
  listen_for_incoming_messages fuel
    (concat (map (fun c => encode (fst c) (snd c)) commands))
  = map (fun _ => NotAddressedToUs (b "01")) commands.
Proof.
  intros Hfuel.
  pose (items := map (fun c : BeoCommand * Z =>
                        (@nil byte, encoded_body (fst c) (snd c))) commands).
  replace (concat (map (fun c => encode (fst c) (snd c)) commands))
    with (stream items []).
  - rewrite listen_stream.
    + unfold items. rewrite !map_map. reflexivity.
    + unfold items. apply Forall_map, Forall_forall. intros [c n] _.
      split; [constructor | apply encoded_body_well_formed].
    + constructor.
    + unfold items. now rewrite length_map.
  - unfold stream, items. rewrite app_nil_r, map_map. f_equal.
    apply map_ext. intros [c n]. symmetry. apply encode_frame.
Qed.

Lemma X10_witness :
  listen_for_incoming_messages 2 (encode VOLUME_UP 1 ++ encode AUDIO_AUX 1)
  = [NotAddressedToUs (b "01"); NotAddressedToUs (b "01")].
Proof.
  refine (eq_trans _ (X10_own_frames_are_turned_away
                        [(VOLUME_UP, 1); (AUDIO_AUX, 1)] 2 _)).
  - cbn [map concat fst snd]. now rewrite app_nil_r.
  - repeat constructor.
Defined.

(** ** Telling frames apart *)

Lemma digit_val_digit (d : Z) : 0 <= d <= 9 -> digit_val (digit d) = d.
Proof.
  intros H.
  assert (d = 0 \/ d = 1 \/ d = 2 \/ d = 3 \/ d = 4 \/ d = 5 \/ d = 6
          \/ d = 7 \/ d = 8 \/ d = 9) as Hd by lia.
  repeat (destruct Hd as [-> | Hd]; [reflexivity|]). now subst.
Qed.

Lemma numeral_snoc (l : bytes) (c : byte) :
  numeral (l ++ [c]) = 10 * numeral l + digit_val c.
Proof. unfold numeral. now rewrite fold_left_app. Qed.

Lemma numeral_zeros (k : nat) (l : bytes) :
  numeral (repeat "0"%byte k ++ l) = numeral l.
Proof.
  unfold numeral. rewrite fold_left_app.
  replace (fold_left _ (repeat "0"%byte k) 0) with 0; [reflexivity|].
  induction k as [|k IH]; [reflexivity | exact IH].
Qed.

(** The digits [decimal_digits] puts before [acc] are those of [n]. *)
Lemma decimal_digits_numeral (fuel : nat) :
  forall n acc, 0 <= n < 10 ^ Z.of_nat fuel ->
  exists ds, decimal_digits fuel n acc = ds ++ acc /\ numeral ds = n.
Proof.
  induction fuel as [|fuel IH]; intros n acc Hn.
  - exists []. split; [reflexivity|]. simpl in Hn. unfold numeral. simpl. lia.
  - rewrite Nat2Z.inj_succ, Z.pow_succ_r in Hn by lia.
    cbn [decimal_digits].
    assert (Hm : 0 <= n mod 10 <= 9)
      by (pose proof (Z.mod_pos_bound n 10); lia).
    destruct (n / 10 =? 0) eqn:E.
    + exists [digit (n mod 10)]. split; [reflexivity|].
      apply Z.eqb_eq in E. unfold numeral. simpl.
      rewrite digit_val_digit by assumption.
      pose proof (Z.div_mod n 10). lia.
    + destruct (IH (n / 10) (digit (n mod 10) :: acc)) as (ds & -> & Hds).
      { split; [apply Z.div_pos; lia|].
        apply Z.div_lt_upper_bound; lia. }
      exists (ds ++ [digit (n mod 10)]). split.
      * now rewrite <- app_assoc.
      * rewrite numeral_snoc, Hds, digit_val_digit by assumption.
        pose proof (Z.div_mod n 10). lia.
Qed.

Lemma numeral_decimal (n : Z) : 0 <= n -> numeral (decimal n) = n.
Proof.
  intros Hn. unfold decimal.
  destruct (decimal_digits_numeral (S (Z.to_nat (Z.log2 n))) n []) as
    (ds & -> & Hds).
  - split; [assumption|].
    destruct (Z.eq_dec n 0) as [-> | Hnz]; [reflexivity|].
    rewrite Nat2Z.inj_succ, Z2Nat.id by apply Z.log2_nonneg.
    apply Z.lt_le_trans with (2 ^ Z.succ (Z.log2 n)).
    + apply Z.log2_spec. lia.
    + apply Z.pow_le_mono_l. pose proof (Z.log2_nonneg n). lia.
  - now rewrite app_nil_r.
Qed.

Lemma format_03_length (n : Z) : (3 <= length (format_03 n))%nat.
Proof.
  unfold format_03, zero_pad. destruct (n <? 0); cbn [length];
    rewrite length_app, repeat_length; lia.
Qed.

Lemma digit_no_minus (d : Z) : Byte.eqb "-" (digit d) = false.
Proof.
  unfold digit;
    repeat match goal with
           | |- context [match ?y with _ => _ end] => destruct y
           end; reflexivity.
Qed.

Lemma decimal_digits_no_minus (fuel : nat) :
  forall n acc, no_byte "-" acc -> no_byte "-" (decimal_digits fuel n acc).
Proof.
  induction fuel as [|fuel IH]; intros n acc Hacc; simpl; [assumption|].
  assert (no_byte "-" (digit (n mod 10) :: acc))
    by (constructor; [apply digit_no_minus | assumption]).
  destruct (n / 10 =? 0); auto.
Qed.

Lemma zero_pad_decimal_no_minus (width : nat) (n : Z) :
  no_byte "-" (zero_pad width (decimal n)).
Proof.
  unfold zero_pad. apply no_byte_app. split.
  - induction (width - _)%nat; simpl; constructor; auto.
  - apply decimal_digits_no_minus. constructor.
Qed.

Lemma int_of_format_03 (n : Z) : int_of (format_03 n) = n.
Proof.
  unfold format_03. destruct (n <? 0) eqn:E.
  - apply Z.ltb_lt in E. cbn [int_of]. cbn [Byte.eqb].
    change (Byte.eqb "-" "-") with true. cbn iota.
    unfold zero_pad. rewrite numeral_zeros, numeral_decimal; lia.
  - apply Z.ltb_ge in E.
    pose proof (zero_pad_decimal_no_minus 3 n) as Hm.
    assert (Hv : numeral (zero_pad 3 (decimal n)) = n)
      by (unfold zero_pad; rewrite numeral_zeros; now apply numeral_decimal).
    destruct (zero_pad 3 (decimal n)) as [|c l]; [exact Hv|].
    cbn [int_of]. inversion Hm as [|? ? Hc _]; subst. now rewrite Hc.
Qed.

Lemma app_inj_length {A : Type} (l1 l2 r1 r2 : list A) :
  l1 ++ r1 = l2 ++ r2 -> length l1 = length l2 -> l1 = l2 /\ r1 = r2.
Proof.
  revert l2. induction l1 as [|x l1 IH]; intros [|y l2] H Hlen;
    try discriminate; [now split|].
  injection H as -> H. destruct (IH l2 H) as [-> ->]; [|now split].
  now injection Hlen.
Qed.

Lemma value_inj (c c' : BeoCommand) : value c = value c' -> c = c'.
Proof. destruct c, c'; intros H; first [reflexivity | discriminate H]. Qed.

Lemma value_length (c : BeoCommand) : length (value c) = 33%nat.
Proof. now destruct c. Qed.

Lemma encode_inj (c c' : BeoCommand) (n n' : Z) :
  encode c n = encode c' n' -> c = c' /\ n = n'.
Proof.
  unfold encode. rewrite !format_03_mod_256.
  intros H. cbn [START_OF_TRANSMISSION LINTRONIC_ADDRESS OUR_ADDRESS app b
                 list_byte_of_string] in H.
  rewrite <- !app_assoc in H.
  change (START_OF_TRANSMISSION ++ ?x) with ("<"%byte :: x) in H.
  change (LINTRONIC_ADDRESS ++ ?x) with ("0"%byte :: "1"%byte :: x) in H.
  change (OUR_ADDRESS ++ ?x) with ("0"%byte :: "0"%byte :: x) in H.
  injection H as H.
  apply app_inj_length in H; [|now rewrite !value_length].
  destruct H as [Hc H]. apply value_inj in Hc. split; [exact Hc|].
  assert (Hlen : length (format_03 n) = length (format_03 n')).
  { apply (f_equal (@length byte)) in H. rewrite !length_app in H.
    unfold digits3 in H. simpl in H. lia. }
  apply app_inj_length in H; [|exact Hlen].
  destruct H as [H _].
  rewrite <- (int_of_format_03 n), <- (int_of_format_03 n'). now rewrite H.
Qed.

(** X11. Frames do not collide: two different pairs of a command and a
    repeat count (any integers) never give the same bytes, so the command
    and the count can be read back from a frame. *)
Theorem X11_frames_do_not_collide (c c' : BeoCommand) (n n' : Z) :
  (c, n) <> (c', n') -> encode c n <> encode c' n'.
Proof.
  intros H E. apply H. destruct (encode_inj c c' n n' E) as [-> ->].
  reflexivity.
Qed.

Lemma X11_witness : encode VOLUME_DOWN 1 <> encode VOLUME_DOWN 10.
Proof.
  refine (X11_frames_do_not_collide VOLUME_DOWN VOLUME_DOWN 1 10 _).
  intros H. discriminate H.
Defined.

(** ** What the process ever does *)

(** The audit holds along every execution of the event loop. *)
Section AuditFacts.

Variable allowed : Action -> Prop.

Lemma sound_bind {A B} (p : Prog A) (f : A -> Prog B) :
  sound allowed p -> (forall a, sound allowed (f a)) -> sound allowed (bind p f).
Proof.
  intros Hp Hf. induction Hp; simpl; auto using sound_Atomic, sound_Await.
Qed.

Lemma keeps_record {X} (m : Sync X) (a : Action) :
  allowed a ->
  (forall w, log (snd (m w)) = log w ++ [a]) -> keeps allowed m.
Proof.
  intros Ha H w Hw. unfold audited. rewrite H.
  apply Forall_app. split; [exact Hw | now constructor].
Qed.

Lemma keeps_silent {X} (m : Sync X) :
  (forall w, log (snd (m w)) = log w) -> keeps allowed m.
Proof. intros H w Hw. unfold audited. now rewrite H. Qed.

Lemma advance_sound (p : Prog unit) :
  sound allowed p ->
  forall w, audited allowed w ->
    audited allowed (snd (advance p w))
    /\ match fst (advance p w) with
       | Waiting _ k => sound allowed k
       | Finished _ => True
       end.
Proof.
  induction 1 as [a|X m k Hm Hk IH|aw k Ha Hk IH]; intros w Hw; simpl.
  - split; auto.
  - specialize (Hm w Hw). destruct (m w) as [x w1]. now apply IH.
  - split; [|assumption]. unfold audited. cbn.
    apply Forall_app. split; [exact Hw | now constructor].
Qed.

Lemma park_audited (others : list (Awaitable * Prog unit)) (p : Prog unit) w :
  sound allowed p -> audited allowed w -> Forall (fun e => sound allowed (snd e)) others ->
  system_audited allowed (park others (advance p w)).
Proof.
  intros Hp Hw Ho. destruct (advance_sound p Hp w Hw) as (Hw' & Hk).
  unfold park. destruct (fst (advance p w)); split; simpl; auto.
  apply Forall_app. split; auto.
Qed.

Hypothesis sound_callback : forall c, sound allowed (callback c).
Hypothesis sound_wake :
  forall timeout, sound allowed (resumed (shutdown_timer timeout)).

Lemma step_audited (s s' : System) (l : Label) :
  step s l s' -> system_audited allowed s -> system_audited allowed s'.
Proof.
  intros Hstep [Hw Hws]. destruct Hstep; cbn [world waiting] in *.
  - apply park_audited; auto.
  - apply Forall_app in Hws as [H1 H2]. inversion H2; subst.
    apply park_audited; auto. apply Forall_app; auto.
  - apply Forall_app in Hws as [H1 H2]. inversion H2; subst.
    split; simpl; auto. apply Forall_app; split; assumption.
  - apply park_audited; auto.
  - split; simpl; auto.
Qed.

Lemma reachable_audited (s : System) : reachable s -> system_audited allowed s.
Proof.
  induction 1 as [handler|s l s' _ IH Hstep].
  - split; simpl; constructor.
  - eauto using step_audited.
Qed.

End AuditFacts.

Lemma keeps_cancel_shutdown_timer_task :
  keeps expected cancel_shutdown_timer_task.
Proof.
  intros w Hw. unfold audited. rewrite cancel_shutdown_timer_task_eq. cbn.
  apply Forall_app. split; [exact Hw|].
  unfold cancellation. destruct (shutdown_timer_task w); repeat constructor.
Qed.

Lemma keeps_start_shutdown_timer (timeout : timedelta) :
  timeout = FIVE_MINUTES \/ timeout = FIFTEEN_MINUTES ->
  keeps expected (start_shutdown_timer timeout).
Proof.
  intros Ht w Hw. unfold audited. rewrite start_shutdown_timer_eq. cbn.
  rewrite !Forall_app. split; [exact Hw|]. split.
  - unfold cancellation. destruct (shutdown_timer_task w); repeat constructor.
  - constructor; [exact Ht | constructor].
Qed.

Lemma sound_write_message_to_lintronic (c : BeoCommand) (n : Z) :
  In (c, n) commands_used ->
  sound expected (write_message_to_lintronic c n).
Proof.
  intros H. unfold write_message_to_lintronic.
  apply sound_bind; [|intros _; apply sound_Await; [exact I|apply sound_Ret]].
  apply sound_Atomic; [|intros x; apply sound_Ret].
  apply (keeps_record expected _ (WriterWrite (encode c n)));
    [|reflexivity].
  exists (c, n). now split.
Qed.

Ltac sound_tac :=
  repeat first
    [ apply sound_Ret
    | apply sound_write_message_to_lintronic; simpl; tauto
    | apply sound_bind
    | apply sound_Atomic
    | apply sound_Await
    | apply keeps_cancel_shutdown_timer_task
    | apply keeps_start_shutdown_timer; tauto
    | match goal with
      | |- sound _ (if ?c then _ else _) => destruct c
      | |- sound _ (match ?x with _ => _ end) => destruct x
      | |- keeps _ _ =>
          first [ apply keeps_silent; reflexivity
                | eapply keeps_record; [|reflexivity]; exact I ]
      | |- expected _ => exact I
      | |- forall _, _ => intro
      end ].

Lemma sound_callback (c : Callback) : sound expected (callback c).
Proof.
  destruct c; simpl;
    unfold volume_handler, playback_handler, power_off_handler,
      Dbus.send_spotify_command, Dbus.send_command, lift, await;
    sound_tac.
Qed.

Lemma sound_shutdown_timer_wake (timeout : timedelta) :
  sound expected (resumed (shutdown_timer timeout)).
Proof.
  unfold shutdown_timer, lift, await. simpl. sound_tac.
Qed.

Lemma emitted_In (message : bytes) (l : list Action) :
  In message (emitted l) <-> In (WriterWrite message) l.
Proof.
  induction l as [|a l IH]; [reflexivity|].
  destruct a; simpl; rewrite IH; split; intros H;
    try (now right); try (destruct H as [H|H]; [discriminate H|exact H]).
  - destruct H as [->|H]; [now left | now right].
  - destruct H as [H|H]; [injection H as ->; now left | now right].
Qed.

(** X12. Whatever callbacks arrive and however the event loop interleaves
    them, the coordinator only ever writes five frames to the LinTronic:
    VOLUME_UP, VOLUME_DOWN, AUDIO_AUX and AUDIO_POWER_OFF once, and
    VOLUME_DOWN ten times.  No frame of AUDIO_NEXT, AUDIO_PREV, AUDIO_PAUSE,
    AUDIO_PLAY or A_TAPE2 and no other repeat count is written; and every
    shutdown timer it creates lasts 5 or 15 minutes. *)
Theorem X12_only_five_frames_are_sent (s : System) :
  reachable s ->
  (forall message, In message (emitted (log (world s))) ->
     In message [encode VOLUME_UP 1; encode VOLUME_DOWN 1;
                 encode VOLUME_DOWN 10; encode AUDIO_AUX 1;
                 encode AUDIO_POWER_OFF 1])
  /\ (forall c n, In (encode c n) (emitted (log (world s))) ->
        In (c, n) commands_used)
  /\ (forall task timeout, In (CreatedTask task timeout) (log (world s)) ->
        total_seconds timeout = 300 \/ total_seconds timeout = 900).
Proof.
  intros Hs.
  destruct (reachable_audited expected sound_callback
              sound_shutdown_timer_wake s Hs) as [Hw _].
  unfold audited in Hw. rewrite Forall_forall in Hw.
  assert (Hsent : forall message, In message (emitted (log (world s))) ->
            exists c, In c commands_used /\ message = encode (fst c) (snd c)).
  { intros message H. apply emitted_In in H. exact (Hw _ H). }
  split; [|split].
  - intros message H. destruct (Hsent _ H) as (c & Hc & ->).
    apply (in_map (fun c => encode (fst c) (snd c))) in Hc. exact Hc.
  - intros c n H. destruct (Hsent _ H) as ([c' n'] & Hc & E).
    apply encode_inj in E as [-> ->]. exact Hc.
  - intros task timeout H. apply Hw in H. destruct H as [-> | ->]; auto.
Qed.

(** After "Stopped" and then a change of volume. *)
Lemma X12_witness :
  let s0 := mkSystem (MainHandler_init None) [] in
  let s1 :=
    park [] (advance (callback (PlaybackStatusChanged "Stopped")) (world s0)) in
  let s2 :=
    park [] (advance (callback (VolumeChanged float_1_0)) (world s1)) in
  reachable s2
  /\ emitted (log (world s2)) = [encode VOLUME_UP 1]
  /\ ~ In (encode AUDIO_PLAY 1) (emitted (log (world s2))).
Proof.
  intros s0 s1 s2.
  assert (R1 : reachable s1)
    by exact (reachable_step _ _ _ (reachable_init None)
                (step_start (PlaybackStatusChanged "Stopped") _ [])).
  assert (R2 : reachable s2)
    by exact (reachable_step _ _ _ R1
                (step_start (VolumeChanged float_1_0) _ [])).
  destruct (X12_only_five_frames_are_sent s2 R2) as (_ & Hused & _).
  split; [exact R2|]. split; [reflexivity|].
  intros H. apply Hused in H. simpl in H.
  repeat (destruct H as [H|H]; [discriminate H|]). exact H.
Defined.

(** ** The power-off request *)

(** A coroutine followed by a [return]. *)
Lemma run_then_return {A B} (p : Prog A) (r : B) :
  forall outs w,
    run outs (p ;; Ret r)%prog w
    = match run outs p w with
      | (Returned _, w') => (Returned r, w')
      | (Raised exc, w') => (Raised exc, w')
      end.
Proof.
  induction p as [a|X m k IH|aw k IH]; intros outs w; simpl.
  - reflexivity.
  - destruct (m w) as [x w1]. apply IH.
  - destruct outs as [|[|exc] outs]; auto.
Qed.

Lemma startswith_skipn (x prefix : Webserver.str) :
  Webserver.startswith x prefix = true ->
  x = prefix ++ skipn (length prefix) x.
Proof.
  revert x. induction prefix as [|p prefix IH]; intros x H; [reflexivity|].
  destruct x as [|c x]; [discriminate H|]. simpl in H.
  apply andb_true_iff in H as [Hc H]. apply Z.eqb_eq in Hc. subst c.
  simpl. f_equal. now apply IH.
Qed.

Lemma startswith_app (prefix x : Webserver.str) :
  Webserver.startswith (prefix ++ x) prefix = true.
Proof.
  induction prefix as [|p prefix IH]; simpl; [reflexivity|].
  now rewrite Z.eqb_refl.
Qed.

(** *** UTF-8 can be read back *)

Lemma byte_val_byte_of (n : Z) :
  0 <= n < 256 -> byte_val (Webserver.byte_of n) = n.
Proof.
  intros H. unfold Webserver.byte_of, byte_val.
  destruct (Byte.of_N (Z.to_N n)) as [c|] eqn:E.
  - apply Byte.to_of_N in E. rewrite E. lia.
  - apply Byte.of_N_None_iff in E. lia.
Qed.

Lemma byte_of_inj (n m : Z) :
  0 <= n < 256 -> 0 <= m < 256 ->
  Webserver.byte_of n = Webserver.byte_of m -> n = m.
Proof.
  intros Hn Hm E.
  rewrite <- (byte_val_byte_of n Hn), <- (byte_val_byte_of m Hm).
  now rewrite E.
Qed.

Ltac utf8_bytes :=
  repeat match goal with
         | H : Webserver.byte_of ?n = Webserver.byte_of ?m |- _ =>
             apply byte_of_inj in H;
             [| Z.div_mod_to_equations; lia | Z.div_mod_to_equations; lia]
         end.

(** The bytes of a code point are not the start of those of another. *)
Lemma encode_code_point_inj (c c' : Z) (bs bs' r r' : bytes) :
  Webserver.encode_code_point c = Some bs ->
  Webserver.encode_code_point c' = Some bs' ->
  bs ++ r = bs' ++ r' -> c = c' /\ r = r'.
Proof.
  unfold Webserver.encode_code_point. intros H H' E.
  repeat match type of H with
         | context [if ?t then _ else _] =>
             let Ht := fresh "Ht" in destruct t eqn:Ht
         end; try discriminate H; injection H as <-;
  repeat match type of H' with
         | context [if ?t then _ else _] =>
             let Ht := fresh "Ht" in destruct t eqn:Ht
         end; try discriminate H'; injection H' as <-;
  repeat match goal with
         | H : (_ <? _) = true |- _ => apply Z.ltb_lt in H
         | H : (_ <? _) = false |- _ => apply Z.ltb_ge in H
         | H : _ && _ = false |- _ => clear H
         end;
  cbn [app] in E; injection E; intros; utf8_bytes;
  try (exfalso; Z.div_mod_to_equations; lia);
  (split; [Z.div_mod_to_equations; lia | congruence]).
Qed.

Lemma utf8_inj (x y : Webserver.str) (bs : bytes) :
  Webserver.encode x = Some bs -> Webserver.encode y = Some bs -> x = y.
Proof.
  revert y bs. induction x as [|c x IH]; intros [|d y] bs Hx Hy; simpl in *.
  - reflexivity.
  - injection Hx as <-.
    destruct (Webserver.encode_code_point d) as [ds|] eqn:Ed; [|discriminate].
    destruct (Webserver.encode y) as [ys|]; [|discriminate].
    injection Hy as Hy. exfalso.
    unfold Webserver.encode_code_point in Ed.
    repeat match type of Ed with
           | context [if ?t then _ else _] => destruct t
           end; try discriminate Ed; injection Ed as <-; discriminate Hy.
  - injection Hy as <-.
    destruct (Webserver.encode_code_point c) as [cs|] eqn:Ec; [|discriminate].
    destruct (Webserver.encode x) as [xs|]; [|discriminate].
    injection Hx as Hx. exfalso.
    unfold Webserver.encode_code_point in Ec.
    repeat match type of Ec with
           | context [if ?t then _ else _] => destruct t
           end; try discriminate Ec; injection Ec as <-; discriminate Hx.
  - destruct (Webserver.encode_code_point c) as [cs|] eqn:Ec; [|discriminate].
    destruct (Webserver.encode x) as [xs|] eqn:Ex; [|discriminate].
    destruct (Webserver.encode_code_point d) as [ds|] eqn:Ed; [|discriminate].
    destruct (Webserver.encode y) as [ys|] eqn:Ey; [|discriminate].
    injection Hx as <-. injection Hy as Hy.
    destruct (encode_code_point_inj d c ds cs ys xs Ed Ec Hy) as [-> ->].
    f_equal. exact (IH y xs eq_refl Ey).
Qed.

(** X13. The web server runs the power-off callback for exactly one value
    of the Authorization header, "Bearer " followed by the secret.  The
    response is then 200 once the callback has returned (what the callback
    raises goes on to the server).  For any other header, and for a request
    without the header, the callback is not run and nothing is written,
    awaited or changed: the response is 401, except that a header which
    starts with "Bearer " and goes on with text that has no encoding (a lone
    surrogate) makes the handler raise [UnicodeEncodeError].  As [main]
    refuses an empty secret, the header "Bearer " with no token gets 401.
    The secret is one [start_server] could encode. *)
Theorem X13_power_off_needs_the_secret
    (power_off_callback : Prog unit) (auth_secret : Webserver.str)
    (handler : option Webserver.str -> Prog (Result Z))
    (auth_header : option Webserver.str) (outs : list Outcome) (w : World) :
  Webserver.start_server power_off_callback auth_secret = Returned handler ->
  let bearer := Webserver.text "Bearer " in
  let done := run outs (handler auth_header) w in
  (auth_header = Some (bearer ++ auth_secret) ->
   done = match run outs power_off_callback w with
          | (Returned _, w') => (Returned (Returned 200), w')
          | (Raised exc, w') => (Raised exc, w')
          end)
  /\ (auth_header <> Some (bearer ++ auth_secret) ->
      snd done = w
      /\ fst done
         = match auth_header with
           | Some header =>
               if Webserver.startswith header bearer
               then match Webserver.encode (skipn 7 header) with
                    | Some _ => Returned (Returned 401)
                    | None => Returned (Raised "UnicodeEncodeError")
                    end
               else Returned (Returned 401)
           | None => Returned (Returned 401)
           end)
  /\ (forall environ_get,
        Webserver.auth_secret_of environ_get = Returned auth_secret ->
        auth_header = Some bearer ->
        done = (Returned (Returned 401), w)).
Proof.
  intros H bearer done. unfold Webserver.start_server in H.
  destruct (Webserver.encode auth_secret) as [auth_secret_b|] eqn:Esecret;
    [|discriminate H].
  injection H as H. subst handler.
  assert (Hno : auth_header <> Some (bearer ++ auth_secret) ->
      snd done = w
      /\ fst done
         = match auth_header with
           | Some header =>
               if Webserver.startswith header bearer
               then match Webserver.encode (skipn 7 header) with
                    | Some _ => Returned (Returned 401)
                    | None => Returned (Raised "UnicodeEncodeError")
                    end
               else Returned (Returned 401)
           | None => Returned (Returned 401)
           end).
  { intros Hne. subst done. unfold Webserver.power_off_handler.
    destruct auth_header as [header|]; [|now split].
    fold bearer.
    destruct (Webserver.startswith header bearer) eqn:Eprefix.
    - destruct header as [|c header]; [discriminate Eprefix|].
      cbn [orb negb].
      destruct (Webserver.encode (skipn 7 (c :: header))) as [token|]
        eqn:Etoken; [|now split].
      destruct (negb (Webserver.compare_digest token auth_secret_b))
        eqn:Esame; [now split|].
      exfalso. apply Hne. f_equal.
      apply negb_false_iff, bytes_eqb_eq in Esame. subst token.
      rewrite (utf8_inj _ _ _ Esecret Etoken).
      exact (startswith_skipn _ bearer Eprefix).
    - rewrite orb_true_r. now split. }
  split; [|split].
  - intros ->. subst done. unfold Webserver.power_off_handler.
    fold bearer. rewrite startswith_app. cbn [negb orb].
    change (skipn 7 (bearer ++ auth_secret)) with auth_secret.
    rewrite Esecret.
    replace (Webserver.compare_digest auth_secret_b auth_secret_b)
      with true by (symmetry; now apply bytes_eqb_eq).
    cbn [negb]. apply run_then_return.
  - exact Hno.
  - intros environ_get Henv ->.
    assert (Hne : Some bearer <> Some (bearer ++ auth_secret)).
    { intros E. injection E as E.
      destruct auth_secret as [|c x]; [|discriminate E].
      destruct environ_get as [[|c x]|]; discriminate Henv. }
    destruct (Hno Hne) as [Hw Hr].
    rewrite (surjective_pairing done), Hw, Hr. reflexivity.
Qed.

(** The right token, a wrong one, one with a lone surrogate, and none. *)
Lemma X13_witness :
  let w := MainHandler_init None in
  let handler :=
    Webserver.power_off_handler power_off_handler (b "s3cret") in
  Webserver.start_server power_off_handler (Webserver.text "s3cret")
  = Returned handler
  /\ run [] (handler (Some (Webserver.text "Bearer s3cret"))) w
     = (Returned (Returned 200), snd (run [] power_off_handler w))
  /\ run [] (handler (Some (Webserver.text "Bearer s3cre"))) w
     = (Returned (Returned 401), w)
  /\ run [] (handler (Some (Webserver.text "Bearer " ++ [56575]))) w
     = (Returned (Raised "UnicodeEncodeError"), w)
  /\ run [] (handler None) w = (Returned (Returned 401), w).
Proof.
  intros w handler.
  assert (Hstart :
            Webserver.start_server power_off_handler (Webserver.text "s3cret")
            = Returned handler) by reflexivity.
  pose proof (fun header =>
                X13_power_off_needs_the_secret power_off_handler
                  (Webserver.text "s3cret") handler header [] w Hstart)
    as H. cbv zeta in H.
  split; [exact Hstart|]. split; [|split; [|split]].
  - exact (proj1 (H _) eq_refl).
  - destruct (proj1 (proj2 (H (Some (Webserver.text "Bearer s3cre"))))
                ltac:(discriminate)) as [Hw Hr].
    now apply injective_projections.
  - destruct (proj1 (proj2
                (H (Some (Webserver.text "Bearer " ++ [56575]))))
                ltac:(discriminate)) as [Hw Hr].
    now apply injective_projections.
  - destruct (proj1 (proj2 (H None)) ltac:(discriminate)) as [Hw Hr].
    now apply injective_projections.
Defined.

(** ** The watch on spotifyd *)

Section WatchFacts.

Variable V : Type.
Variables playback_cb volume_cb : V -> Prog unit.

Lemma co_advance_fine (p : Bus.Co V unit) :
  forall s, fine_from playback_cb volume_cb p s ->
    watch_inv playback_cb volume_cb (snd (Bus.co_advance p s))
    /\ fine_parked playback_cb volume_cb (fst (Bus.co_advance p s)).
Proof.
  induction p as [a|X m k IH|X c k IH]; intros s Hs; simpl in *.
  - split; [assumption | exact I].
  - destruct (m s) as [x s1]. now apply IH.
  - exact Hs.
Qed.

Lemma park_fine (others : list (Bus.Parked V unit)) (p : Bus.Co V unit) s :
  fine_from playback_cb volume_cb p s -> Forall (fine_parked playback_cb volume_cb) others ->
  system_fine playback_cb volume_cb (Bus.park others (Bus.co_advance p s)).
Proof.
  intros Hp Ho. destruct (co_advance_fine p s Hp) as [Hs Hk].
  unfold Bus.park. destruct (fst (Bus.co_advance p s)); split; simpl; auto.
  apply Forall_app. split; auto.
Qed.

Lemma fine_on_name_owner_changed (name : string) (s : Bus.Bus V) :
  watch_inv playback_cb volume_cb s -> fine_from playback_cb volume_cb (Bus.on_name_owner_changed name) s.
Proof.
  intros Hs. unfold Bus.on_name_owner_changed.
  destruct ((name =? "")%string || negb (String.prefix Bus.SPOTIFYD name))
    eqn:E; [exact Hs|].
  apply orb_false_iff in E as [_ E]. apply negb_false_iff in E.
  split; [exact Hs|]. clear s Hs. intros has_owner s Hs.
  unfold Bus.after_has_owner. cbn [fine_from Bus.read_spotify_handler].
  pose proof Hs as (Hr & Hd & Hsub & Hh).
  destruct (Bus.spotify_handler s) as [h|] eqn:Eh.
  - destruct ((Bus.bus_name h =? name)%string && negb has_owner).
    + cbn. repeat split; auto. discriminate.
    + exact Hs.
  - destruct has_owner.
    + cbn [fine_from Bus.read_spotify_callbacks Bus.co_bind
           Bus.SpotifydHandler_create]. rewrite Hr.
      split; [exact Hs|].
      clear s Hs Hr Hd Hsub Hh Eh. intros _ s (Hr & Hd & Hsub & Hh).
      cbn. repeat split; auto.
      * apply Forall_app. split; [assumption|]. now repeat constructor.
      * intros h H. injection H as <-. apply in_or_app. right. now left.
    + exact Hs.
Qed.

Lemma step_fine (s s' : Bus.System V) (l : Bus.Label) :
  Bus.step s l s' -> system_fine playback_cb volume_cb s -> system_fine playback_cb volume_cb s'.
Proof.
  intros Hstep [Hs Hws]. destruct Hstep; cbn [Bus.bus Bus.calling] in *.
  - apply park_fine; auto using fine_on_name_owner_changed.
  - apply Forall_app in Hws as [H1 H2]. inversion H2 as [|? ? Hk H3]; subst.
    apply park_fine; [now apply Hk | apply Forall_app; auto].
  - apply Forall_app in Hws as [H1 H2]. inversion H2; subst.
    split; simpl; auto. apply Forall_app; split; assumption.
Qed.

Lemma co_run_connect_first (has_owner : string -> bool)
    (names : list string) (d : list (Bus.Callbacks V)) (r : nat) h0 :
  Bus.co_run has_owner (Bus.connect_first O names)
    {| Bus.dicts := d; Bus.subscribed := []; Bus.spotify_callbacks := r;
       Bus.spotify_handler := h0 |}
  = (tt, {| Bus.dicts := d;
            Bus.subscribed :=
              match first_spotifyd names with
              | Some name => [handler_at name]
              | None => []
              end;
            Bus.spotify_callbacks := O;
            Bus.spotify_handler :=
              option_map handler_at (first_spotifyd names) |}).
Proof.
  induction names as [|name names IH]; [reflexivity|].
  unfold first_spotifyd. cbn [Bus.connect_first find].
  destruct (negb (name =? "")%string && String.prefix Bus.SPOTIFYD name);
    [reflexivity | exact IH].
Qed.

Lemma co_run_bind {A B} (has_owner : string -> bool)
    (p : Bus.Co V A) (f : A -> Bus.Co V B) :
  forall s,
    Bus.co_run has_owner (Bus.co_bind p f) s
    = let (a, s') := Bus.co_run has_owner p s in Bus.co_run has_owner (f a) s'.
Proof.
  induction p as [a|X m k IH|X c k IH]; intros s; simpl.
  - reflexivity.
  - destruct (m s) as [x s1]. apply IH.
  - apply IH.
Qed.

(** The objects when the event loop starts. *)
Lemma startup_state (has_owner : string -> bool) (names : list string) :
  snd (Bus.co_run has_owner (Bus.startup playback_cb volume_cb names)
         Bus.nothing)
  = {| Bus.dicts := [registered playback_cb volume_cb];
       Bus.subscribed :=
         match first_spotifyd names with
         | Some name => [handler_at name]
         | None => []
         end;
       Bus.spotify_callbacks := O;
       Bus.spotify_handler := option_map handler_at (first_spotifyd names) |}.
Proof.
  unfold Bus.startup. rewrite co_run_bind.
  unfold Bus.DbusHandler_create. cbn [Bus.co_run Bus.new_dict Bus.nothing].
  cbn [Bus.dicts Bus.subscribed Bus.spotify_callbacks Bus.spotify_handler
       app length].
  rewrite co_run_connect_first. reflexivity.
Qed.

Lemma find_some_prefix (names : list string) (name : string) :
  first_spotifyd names = Some name ->
  String.prefix Bus.SPOTIFYD name = true.
Proof.
  intros H. apply find_some in H as [_ H].
  now apply andb_true_iff in H.
Qed.

Lemma reachable_fine (s : Bus.System V) :
  Bus.reachable playback_cb volume_cb s -> system_fine playback_cb volume_cb s.
Proof.
  induction 1 as [names|s l s' _ IH Hstep].
  - rewrite startup_state. split; [|constructor].
    split; [reflexivity|]. split; [reflexivity|]. cbn.
    destruct (first_spotifyd names) as [name|] eqn:E; cbn.
    + split.
      * repeat constructor. now apply find_some_prefix in E.
      * intros h H. injection H as <-. now left.
    + split; [constructor | discriminate].
  - eauto using step_fine.
Qed.

Lemma shape_signal (name : string) (s : Bus.Bus V) :
  shape (fst (Bus.co_advance (Bus.on_name_owner_changed name) s)).
Proof.
  unfold Bus.on_name_owner_changed.
  now destruct ((name =? "")%string || negb (String.prefix Bus.SPOTIFYD name)).
Qed.

Lemma shape_after_has_owner (name : string) (has_owner : bool) s :
  watch_inv playback_cb volume_cb s ->
  shape (fst (Bus.co_advance (Bus.after_has_owner name has_owner) s)).
Proof.
  intros (Hr & _). unfold Bus.after_has_owner.
  cbn [Bus.co_advance Bus.read_spotify_handler].
  destruct (Bus.spotify_handler s) as [h|].
  - now destruct ((Bus.bus_name h =? name)%string && negb has_owner).
  - destruct has_owner; [|exact I]. cbn. now rewrite Hr.
Qed.

Lemma park_shape (others : list (Bus.Parked V unit)) (p : Bus.Co V unit) s :
  shape (fst (Bus.co_advance p s)) -> Forall shape others ->
  Forall shape (Bus.calling (Bus.park others (Bus.co_advance p s))).
Proof.
  intros Hp Ho. unfold Bus.park.
  destruct (fst (Bus.co_advance p s)); simpl; auto.
  apply Forall_app. split; auto.
Qed.

Lemma step_shape (s s' : Bus.System V) (l : Bus.Label) :
  Bus.step s l s' -> system_fine playback_cb volume_cb s -> Forall shape (Bus.calling s) ->
  Forall shape (Bus.calling s').
Proof.
  intros Hstep [Hs _] Hws. destruct Hstep; cbn [Bus.bus Bus.calling] in *.
  - apply park_shape; auto using shape_signal.
  - apply Forall_app in Hws as [H1 H2]. inversion H2 as [|? ? Hk H3]; subst.
    apply park_shape; [|apply Forall_app; auto].
    destruct c; simpl in Hk; subst k.
    + now apply shape_after_has_owner.
    + exact I.
  - apply Forall_app in Hws as [H1 H2]. inversion H2; subst.
    apply Forall_app; split; assumption.
Qed.

Lemma reachable_shape (s : Bus.System V) :
  Bus.reachable playback_cb volume_cb s -> Forall shape (Bus.calling s).
Proof.
  induction 1 as [names|s l s' Hs IH Hstep].
  - constructor.
  - eauto using step_shape, reachable_fine.
Qed.

Lemma park_bus (others : list (Bus.Parked V unit)) (x : Bus.Parked V unit * Bus.Bus V) :
  Bus.bus (Bus.park others x) = snd x.
Proof. unfold Bus.park. now destruct (fst x). Qed.

(** X14. Every handler dispatches to the callbacks of the coordinator.  In
    every state the watch on spotifyd can reach, the handler held is one of
    the subscribed ones, and each subscribed handler, the one made by
    [DbusHandler.create] before the callbacks were registered as much as
    those made later, is at a name of spotifyd and refers to the very dict
    of the [DbusHandler]: a change of "PlaybackStatus" goes to the playback
    callback, a change of "Volume" to the volume callback, in the order of
    the payload, and a change of any other property to nobody. *)
Theorem X14_every_handler_sees_the_callbacks (s : Bus.System V) :
  Bus.reachable playback_cb volume_cb s ->
  let objects := Bus.bus s in
  (forall h, Bus.spotify_handler objects = Some h ->
             In h (Bus.subscribed objects))
  /\ forall h, In h (Bus.subscribed objects) ->
       String.prefix Bus.SPOTIFYD (Bus.bus_name h) = true
       /\ Bus.callbacks h = Bus.spotify_callbacks objects
       /\ Bus.on_properties_changed objects h [] = Ret tt
       /\ forall changed value rest,
            Bus.on_properties_changed objects h ((changed, value) :: rest)
            = if ("PlaybackStatus" =? changed)%string
              then (playback_cb value ;;
                    Bus.on_properties_changed objects h rest)%prog
              else if ("Volume" =? changed)%string
              then (volume_cb value ;;
                    Bus.on_properties_changed objects h rest)%prog
              else Bus.on_properties_changed objects h rest.
Proof.
  intros Hs objects.
  destruct (reachable_fine s Hs) as [(Hr & Hd & Hsub & Hh) _].
  fold objects in Hr, Hd, Hsub, Hh.
  split; [exact Hh|]. intros h Hin.
  rewrite Forall_forall in Hsub. destruct (Hsub h Hin) as [Hc Hp].
  split; [exact Hp|]. split; [congruence|].
  unfold Bus.on_properties_changed, Bus.deref. rewrite Hc, Hd.
  split; [reflexivity|]. intros changed value rest.
  cbn [Bus.dispatch Bus.dict_get registered nth].
  destruct ("PlaybackStatus" =? changed)%string; [reflexivity|].
  destruct ("Volume" =? changed)%string; reflexivity.
Qed.

Lemma find_split {A} (f : A -> bool) (l : list A) (x : A) :
  find f l = Some x ->
  exists before after,
    l = before ++ x :: after /\ f x = true
    /\ Forall (fun y => f y = false) before.
Proof.
  induction l as [|y l IH]; [discriminate|]. simpl.
  destruct (f y) eqn:E.
  - intros H. injection H as <-. exists [], l. now repeat split.
  - intros H. destruct (IH H) as (before & after & -> & Hx & Hb).
    exists (y :: before), after. repeat split; auto.
Qed.

(** X15. [DbusHandler.create] connects to the first name of spotifyd that
    the bus lists, and to that one only: the names before it do not start
    with the prefix, the names after it are not looked at; when no listed
    name starts with the prefix, no handler is held and none is
    subscribed.  Either way the dict of callbacks holds the two callbacks
    of the coordinator when the event loop starts. *)
Theorem X15_startup_connects_to_first_spotifyd
    (has_owner : string -> bool) (names : list string) :
  let objects :=
    snd (Bus.co_run has_owner (Bus.startup playback_cb volume_cb names)
           Bus.nothing) in
  Bus.deref objects (Bus.spotify_callbacks objects) = (registered playback_cb volume_cb)
  /\ match Bus.spotify_handler objects with
     | Some h =>
         Bus.subscribed objects = [h]
         /\ Bus.callbacks h = Bus.spotify_callbacks objects
         /\ String.prefix Bus.SPOTIFYD (Bus.bus_name h) = true
         /\ exists before after,
              names = before ++ Bus.bus_name h :: after
              /\ Forall (fun name =>
                           String.prefix Bus.SPOTIFYD name = false) before
     | None =>
         Bus.subscribed objects = []
         /\ Forall (fun name => String.prefix Bus.SPOTIFYD name = false) names
     end.
Proof.
  intros objects. subst objects. rewrite startup_state.
  split; [reflexivity|]. cbn.
  assert (Hweak : forall l,
            Forall (fun y => negb (y =? "")%string
                             && String.prefix Bus.SPOTIFYD y = false) l ->
            Forall (fun name => String.prefix Bus.SPOTIFYD name = false) l).
  { intros l. apply Forall_impl. intros [|c name] H; [reflexivity|].
    exact H. }
  destruct (first_spotifyd names) as [name|] eqn:E; cbn.
  - split; [reflexivity|]. split; [reflexivity|].
    split; [now apply find_some_prefix in E|].
    apply find_split in E as (before & after & -> & _ & Hb).
    exists before, after. split; [reflexivity | now apply Hweak].
  - split; [reflexivity|]. apply Hweak, Forall_forall. intros name Hin.
    exact (find_none _ _ E name Hin).
Qed.

(** X16. The handler held changes at two points only, however the
    coroutines of [_on_name_owner_changed] are interleaved.  When the bus
    answers that a name has no owner and that name is the one of the handler
    held, the handler is dropped; any other answer, about whatever name,
    leaves a held handler in place, so another instance of spotifyd never
    replaces it and is not taken up when it goes.  When a connection begun
    while no handler was held is made, its handler becomes the one held.
    The arrival of a signal and the failure of a call change nothing. *)
Theorem X16_held_handler_changes (s s' : Bus.System V) (l : Bus.Label) :
  Bus.reachable playback_cb volume_cb s -> Bus.step s l s' ->
  let held := Bus.spotify_handler (Bus.bus s) in
  let held' := Bus.spotify_handler (Bus.bus s') in
  match l with
  | Bus.NameOwnerChanged _ => held' = held
  | Bus.Fails _ _ => held' = held
  | Bus.Returns c x =>
      match c in Bus.Call X return X -> Prop with
      | Bus.CallNameHasOwner name => fun has_owner =>
          match held with
          | Some h =>
              if (Bus.bus_name h =? name)%string && negb has_owner
              then held' = None
              else held' = held
          | None => held' = None
          end
      | Bus.Introspect name => fun _ =>
          held' = Some (Bus.mkSpotifydHandler name
                          (Bus.spotify_callbacks (Bus.bus s)))
      end x
  end.
Proof.
  intros Hs Hstep held held'. subst held held'.
  pose proof (reachable_shape s Hs) as Hshape.
  destruct (reachable_fine s Hs) as [(Hr & _) _].
  destruct Hstep; cbn [Bus.bus Bus.calling] in *; rewrite ?park_bus.
  - unfold Bus.on_name_owner_changed.
    now destruct ((name =? "")%string
                  || negb (String.prefix Bus.SPOTIFYD name)).
  - apply Forall_app in Hshape as [_ H2]. inversion H2 as [|? ? Hk _]; subst.
    destruct c; simpl in Hk; subst k.
    + unfold Bus.after_has_owner.
      cbn [Bus.co_advance Bus.read_spotify_handler].
      destruct (Bus.spotify_handler s) as [h|] eqn:Eh.
      * destruct ((Bus.bus_name h =? name)%string && negb x);
          [reflexivity | exact Eh].
      * destruct x; [|exact Eh]. cbn. exact Eh.
    + rewrite Hr. reflexivity.
  - reflexivity.
Qed.

End WatchFacts.

(** A spotifyd is listed; then the bus answers that its name has no owner. *)
Lemma X14_witness :
  let idle : unit -> Prog unit := fun _ => Ret tt in
  let name := "org.mpris.MediaPlayer2.spotifyd.instance1"%string in
  let s0 :=
    Bus.mkSystem
      (snd (Bus.co_run (fun _ => true)
              (Bus.startup idle idle ["org.freedesktop.DBus"%string; name])
              Bus.nothing)) [] in
  Bus.reachable idle idle s0
  /\ Bus.spotify_handler (Bus.bus s0) = Some (Bus.mkSpotifydHandler name 0)
  /\ Bus.on_properties_changed (Bus.bus s0) (Bus.mkSpotifydHandler name 0)
       [("Metadata"%string, tt)] = Ret tt.
Proof.
  intros idle name s0.
  assert (R0 : Bus.reachable idle idle s0) by apply Bus.reachable_init.
  destruct (X14_every_handler_sees_the_callbacks unit idle idle s0 R0)
    as (_ & H).
  split; [exact R0|]. split; [reflexivity|].
  destruct (H (Bus.mkSpotifydHandler name 0) (or_introl eq_refl))
    as (_ & _ & Hnil & Hcons).
  rewrite Hcons. exact Hnil.
Defined.

Lemma X16_witness :
  let idle : unit -> Prog unit := fun _ => Ret tt in
  let name := "org.mpris.MediaPlayer2.spotifyd.instance1"%string in
  let s0 :=
    Bus.mkSystem
      (snd (Bus.co_run (fun _ => true) (Bus.startup idle idle [name])
              Bus.nothing)) [] in
  let s1 :=
    Bus.park [] (Bus.co_advance (Bus.on_name_owner_changed name) (Bus.bus s0)) in
  let s2 :=
    Bus.park [] (Bus.co_advance (Bus.after_has_owner name false) (Bus.bus s1)) in
  Bus.spotify_handler (Bus.bus s1) = Some (Bus.mkSpotifydHandler name 0)
  /\ Bus.spotify_handler (Bus.bus s2) = None.
Proof.
  intros idle name s0 s1 s2.
  assert (R0 : Bus.reachable idle idle s0) by apply Bus.reachable_init.
  assert (S1 : Bus.step s0 (Bus.NameOwnerChanged name) s1)
    by exact (Bus.step_signal unit name _ []).
  assert (R1 : Bus.reachable idle idle s1)
    by exact (Bus.reachable_step unit idle idle _ _ _ R0 S1).
  assert (S2 : Bus.step s1 (Bus.Returns (Bus.CallNameHasOwner name) false) s2)
    by exact (Bus.step_returns unit bool (Bus.CallNameHasOwner name)
                (Bus.after_has_owner name) false (Bus.bus s1) [] []).
  split.
  - exact (X16_held_handler_changes unit idle idle s0 s1 _ R0 S1).
  - exact (X16_held_handler_changes unit idle idle s1 s2 _ R1 S2).
Defined.
